(** * Verification of the indexing-and-retrieval pipeline of mcp-document-search

    Shallow embedding of the Go sources:
    - [Chunker]    : internal/chunker/chunker.go
    - [Embeddings] : internal/embeddings (embeddings client, Embed/embedBatch)
    - [Storage]    : internal/storage/database.go (SQLite document store)
    - [SearchSvc]  : internal/search/search.go (orchestrator, Delete)

    Go [int] values are modelled as [Z]; Go strings handled by the chunker
    are modelled as their rune sequence ([list Z], the result of the
    [[]rune(text)] conversion). *)

From Stdlib Require Import ZArith Lia Bool Ascii String QArith List Sorted Permutation FinFun.
Import ListNotations.
Open Scope Z_scope.

(* ------------------------------------------------------------------ *)
(** ** Runes and Go's [unicode.IsSpace] / UTF-8 length *)

Definition rune := Z.

(** [unicode.IsSpace]: Latin-1 spaces plus the White_Space property. *)
Definition isSpace (r : rune) : bool :=
  if r <=? 255 then
    (r =? 9) || (r =? 10) || (r =? 11) || (r =? 12) || (r =? 13)
    || (r =? 32) || (r =? 133) || (r =? 160)
  else
    (r =? 5760) || ((8192 <=? r) && (r <=? 8202)) || (r =? 8232)
    || (r =? 8233) || (r =? 8239) || (r =? 8287) || (r =? 12288).

(** Number of bytes [string([]rune{r})] takes (utf8.RuneLen, with invalid
    runes encoded as U+FFFD, three bytes). *)
Definition utf8_len (r : rune) : Z :=
  if r <? 0 then 3
  else if r <? 128 then 1
  else if r <? 2048 then 2
  else if (55296 <=? r) && (r <=? 57343) then 3
  else if r <? 65536 then 3
  else if r <=? 1114111 then 4
  else 3.

(** Go's [len(s)] for a string built from runes: its UTF-8 byte length. *)
Definition go_len (s : list rune) : Z := fold_right (fun r n => utf8_len r + n) 0 s.

(** Unicode code-point length ([utf8.RuneCountInString]). *)
Definition rune_count (s : list rune) : Z := Z.of_nat (length s).

(** Go slice [runes[i]] (indices are in range wherever the code reads). *)
Definition rune_at (runes : list rune) (i : Z) : rune := nth (Z.to_nat i) runes 0.

(** [runes[lo:hi]] *)
Definition slice {A} (l : list A) (lo hi : Z) : list A :=
  firstn (Z.to_nat (hi - lo)) (skipn (Z.to_nat lo) l).

(** [string(runes)]: the UTF-8 encoding, invalid runes as U+FFFD. *)
Definition byte_of (n : Z) : ascii := ascii_of_nat (Z.to_nat n).

Definition encode_rune (r : rune) : list ascii :=
  let r := if (r <? 0) || (1114111 <? r) || ((55296 <=? r) && (r <=? 57343)) then 65533 else r in
  if r <? 128 then [byte_of r]
  else if r <? 2048 then [byte_of (192 + r / 64); byte_of (128 + r mod 64)]
  else if r <? 65536 then
    [byte_of (224 + r / 4096); byte_of (128 + (r / 64) mod 64); byte_of (128 + r mod 64)]
  else [byte_of (240 + r / 262144); byte_of (128 + (r / 4096) mod 64);
        byte_of (128 + (r / 64) mod 64); byte_of (128 + r mod 64)].

Definition string_of_runes (rs : list rune) : string :=
  string_of_list_ascii (flat_map encode_rune rs).

(* ------------------------------------------------------------------ *)
(** ** Chunker (internal/chunker/chunker.go) *)

Module Chunker.

Record Chunk := mkChunk {
  Content : list rune;
  Index : Z;
  StartOffset : Z;
  EndOffset : Z
}.

Record Chunker := mkChunker { chunkSize : Z; overlap : Z }.

(** [NewChunker] with its coercions. *)
Definition NewChunker (chunkSize overlap : Z) : Chunker :=
  let chunkSize := if chunkSize <=? 0 then 1000 else chunkSize in
  let overlap := if overlap <? 0 then 0 else overlap in
  let overlap := if overlap >=? chunkSize then chunkSize / 2 else overlap in
  mkChunker chunkSize overlap.

(** [for i := from; i >= scanStart; i--] looking for whitespace;
    [n] is the number of candidate positions, [endPos - scanStart]. *)
Fixpoint scan_back (runes : list rune) (i : Z) (n : nat) : Z :=
  match n with
  | O => -1
  | S n' => if isSpace (rune_at runes i) then i else scan_back runes (i - 1) n'
  end.

(** [for splitPos < endPos && unicode.IsSpace(runes[splitPos]) { splitPos++ }] *)
Fixpoint skip_ws (runes : list rune) (splitPos : Z) (n : nat) : Z :=
  match n with
  | O => splitPos
  | S n' => if isSpace (rune_at runes splitPos) then skip_ws runes (splitPos + 1) n'
            else splitPos
  end.

Definition findWordBoundary (c : Chunker) (runes : list rune) (startPos endPos : Z) : Z :=
  let maxScanBack := if 100 >? chunkSize c then chunkSize c else 100 in
  let scanStart := endPos - maxScanBack in
  let scanStart := if scanStart <? startPos then startPos else scanStart in
  let lastWhitespace := scan_back runes (endPos - 1) (Z.to_nat (endPos - scanStart)) in
  if lastWhitespace >=? 0 then
    skip_ws runes (lastWhitespace + 1) (Z.to_nat (endPos - (lastWhitespace + 1)))
  else endPos.

(** One iteration of the [for position < totalLen] loop body. *)
Inductive step_result :=
  | Done (chunks : list Chunk)
  | Next (position chunkIndex : Z) (chunks : list Chunk).

Definition chunk_step (c : Chunker) (runes : list rune) (totalLen position chunkIndex : Z)
    (chunks : list Chunk) : step_result :=
  let endPos := position + chunkSize c in
  let endPos := if endPos >? totalLen then totalLen else endPos in
  let actualEnd := if endPos <? totalLen then findWordBoundary c runes position endPos
                   else endPos in
  let chunks := chunks ++ [mkChunk (slice runes position actualEnd) chunkIndex position actualEnd] in
  if actualEnd >=? totalLen then Done chunks
  else
    let position := actualEnd - overlap c in
    let position := if position <? 0 then 0 else position in
    Next position (chunkIndex + 1) chunks.

(** The loop, run for at most [fuel] iterations; [None] means it has not
    stopped within that many iterations. *)
Fixpoint chunk_loop (fuel : nat) (c : Chunker) (runes : list rune) (totalLen position chunkIndex : Z)
    (chunks : list Chunk) : option (list Chunk) :=
  match fuel with
  | O => None
  | S fuel' =>
      if position <? totalLen then
        match chunk_step c runes totalLen position chunkIndex chunks with
        | Done cs => Some cs
        | Next p i cs => chunk_loop fuel' c runes totalLen p i cs
        end
      else Some chunks
  end.

(** [ChunkText], with the loop bounded by [fuel] iterations. *)
Definition ChunkText (fuel : nat) (c : Chunker) (runes : list rune) : option (list Chunk) :=
  match runes with
  | [] => Some []
  | _ =>
    let totalLen := Z.of_nat (length runes) in
    if totalLen <=? chunkSize c then Some [mkChunk runes 0 0 totalLen]
    else chunk_loop fuel c runes totalLen 0 0 []
  end.

End Chunker.

(* ------------------------------------------------------------------ *)
(** ** Go outcomes *)

(** A Go call either returns a value, returns a non-nil [error], or
    panics (a runtime error such as an out-of-range slice index). *)
Inductive outcome (A : Type) :=
  | Ret (a : A)
  | Fail (msg : string)
  | Panic (msg : string).
Arguments Ret {A} a.
Arguments Fail {A} msg.
Arguments Panic {A} msg.

(** [s[i] = v] on a Go slice of length [len(s)]. *)
Fixpoint list_set {A} (l : list A) (i : nat) (v : A) : list A :=
  match l, i with
  | [], _ => []
  | _ :: l', O => v :: l'
  | x :: l', S i' => x :: list_set l' i' v
  end.

Definition go_set {A} (l : list A) (i : Z) (v : A) : outcome (list A) :=
  if (0 <=? i) && (i <? Z.of_nat (List.length l)) then Ret (list_set l (Z.to_nat i) v)
  else Panic "runtime error: index out of range".

(* ------------------------------------------------------------------ *)
(** ** Embeddings client (internal/embeddings) *)

Module Embeddings.

Definition maxBatchSize : Z := 100.
Definition embeddingDimension : Z := 1536.
Definition maxRetries : nat := 3.
Definition StatusTooManyRequests : Z := 429.
Definition StatusOK : Z := 200.

(** A [[]float32], as the bit patterns of its elements. *)
Definition vector := list Z.

Record apiError := mkApiError { Message : string; Type_ : string; Code : string }.
Record dataItem := mkItem { Embedding : vector; Index : Z }.
Record embeddingResponse := mkResponse { Data : list dataItem; Error : option apiError }.

(** The body of a response: [NoBody] for a response without content
    ([http.NoBody], which reads as zero bytes, closed or not), [Unreadable]
    when [io.ReadAll] of it fails, or [Body] of some bytes, with the result
    of their JSON decoding ([None] when [json.Unmarshal] fails). *)
Inductive http_body :=
  | NoBody
  | Unreadable
  | Body (decoded : option embeddingResponse).

(** What [httpClient.Do] yields for one attempt: a transport error, or a
    status and a body. *)
Inductive http_result :=
  | TransportError
  | Response (status : Z) (body : http_body).

(** The environment of a client: the provider's answer to each request
    (batch, attempt number), and for each cancellable wait whether the
    timer fires before [ctx.Done()]. *)
Record Env := mkEnv {
  http_do : list string -> nat -> http_result;
  backoff_fires : nat -> bool;
  delay_fires : Z -> bool
}.

(** The retry loop of [embedBatch]; also returns the requests sent. The
    response it ends on comes with whether [resp.Body.Close()] has already
    run on it: a 429 closes the body before the retry test, so the one at
    the last attempt leaves the loop closed. *)
Fixpoint do_attempts (env : Env) (texts : list string) (attempt n : nat)
    : outcome (Z * http_body * bool) * list (list string) :=
  match n with
  | O => (Panic "nil pointer dereference", [])
  | S n' =>
      match http_do env texts attempt with
      | TransportError => (Fail "failed to execute request", [texts])
      | Response st body =>
          if (st =? StatusTooManyRequests) && Nat.ltb attempt (maxRetries - 1) then
            if backoff_fires env attempt then
              let (r, calls) := do_attempts env texts (S attempt) n' in (r, texts :: calls)
            else (Fail "context canceled", [texts])
          else (Ret (st, body, st =? StatusTooManyRequests), [texts])
      end
  end.

(** [io.ReadAll(resp.Body)] then [json.Unmarshal]: a read of a closed
    body of bytes fails ([http: read on closed response body]); the empty
    body of [NoBody] is no JSON. *)
Definition read_body (closed : bool) (body : http_body) : outcome embeddingResponse :=
  match body with
  | NoBody => Fail "failed to parse response"
  | Unreadable => Fail "failed to read response"
  | Body decoded =>
      if closed then Fail "failed to read response"
      else match decoded with
           | Some resp => Ret resp
           | None => Fail "failed to parse response"
           end
  end.

(** [embeddings[item.Index] = item.Embedding] over [embResp.Data]. *)
Fixpoint fill (embeddings : list (option vector)) (items : list dataItem)
    : outcome (list (option vector)) :=
  match items with
  | [] => Ret embeddings
  | item :: rest =>
      if Index item >=? Z.of_nat (List.length embeddings) then Fail "invalid embedding index"
      else if negb (Z.of_nat (List.length (Embedding item)) =? embeddingDimension) then
        Fail "unexpected embedding dimension"
      else match go_set embeddings (Index item) (Some (Embedding item)) with
           | Ret e => fill e rest
           | Fail m => Fail m
           | Panic m => Panic m
           end
  end.

(** [for i, emb := range embeddings { if emb == nil { ... } }] *)
Fixpoint all_present (embeddings : list (option vector)) : outcome (list vector) :=
  match embeddings with
  | [] => Ret []
  | None :: _ => Fail "missing embedding"
  | Some v :: rest =>
      match all_present rest with
      | Ret vs => Ret (v :: vs)
      | Fail m => Fail m
      | Panic m => Panic m
      end
  end.

(** Reassembly of a response for a batch of [n] texts. *)
Definition reassemble (n : nat) (items : list dataItem) : outcome (list vector) :=
  match fill (repeat None n) items with
  | Ret e => all_present e
  | Fail m => Fail m
  | Panic m => Panic m
  end.

Definition embedBatch (env : Env) (texts : list string)
    : outcome (list vector) * list (list string) :=
  let (r, calls) := do_attempts env texts 0 maxRetries in
  (match r with
   | Ret (st, body, closed) =>
       match read_body closed body with
       | Ret resp =>
           match Error resp with
           | Some e => Fail ("OpenAI API error: " ++ Message e)
           | None => if negb (st =? StatusOK) then Fail "HTTP error"
                     else reassemble (List.length texts) (Data resp)
           end
       | Fail m => Fail m
       | Panic m => Panic m
       end
   | Fail m => Fail m
   | Panic m => Panic m
   end, calls).

(** The batch loop of [Embed], from batch start [i], with [all] the
    embeddings collected so far; [fuel] bounds the iterations. *)
Fixpoint embed_loop (env : Env) (texts : list string) (i : Z) (fuel : nat) (all : list vector)
    : outcome (list vector) * list (list string) :=
  match fuel with
  | O => (Ret all, [])
  | S fuel' =>
      let len := Z.of_nat (List.length texts) in
      if i <? len then
        let end_ := if i + maxBatchSize >? len then len else i + maxBatchSize in
        let batch := slice texts i end_ in
        match embedBatch env batch with
        | (Ret es, c1) =>
            let all := all ++ es in
            if end_ <? len then
              if delay_fires env i then
                let (r, c2) := embed_loop env texts (i + maxBatchSize) fuel' all in (r, c1 ++ c2)
              else (Fail "context canceled", c1)
            else
              let (r, c2) := embed_loop env texts (i + maxBatchSize) fuel' all in (r, c1 ++ c2)
        | (Fail m, c1) => (Fail ("failed to embed batch: " ++ m), c1)
        | (Panic m, c1) => (Panic m, c1)
        end
      else (Ret all, [])
  end.

(** [Embed]: the result and the requests sent to the provider. The loop
    advances [i] by [maxBatchSize] each time, so [length texts + 1]
    iterations always suffice. *)
Definition Embed (env : Env) (texts : list string) : outcome (list vector) * list (list string) :=
  match texts with
  | [] => (Ret [], [])
  | _ => embed_loop env texts 0 (S (List.length texts)) []
  end.

End Embeddings.

(* ------------------------------------------------------------------ *)
(** ** Document store (internal/storage/database.go) *)

Module Storage.

Definition embeddingDimension : Z := 1536.

(** A row of table [documents] (and the [Document] struct). *)
Record Document := mkDocument {
  ID : Z;
  Source : string;
  SourceType : string;
  IndexedAt : Z;
  ContentSize : Z;
  ChunkCount : Z;
  Title : string
}.

(** The [Chunk] struct handed to [IndexDocument]; [Content] is a Go string,
    kept as its runes, and [Embedding] a [[]float32] as bit patterns. *)
Record Chunk := mkChunk {
  ChunkIndex : Z;
  Content : list rune;
  StartOffset : Z;
  EndOffset : Z;
  Embedding : list Z
}.

(** A row of table [chunks]. *)
Record ChunkRow := mkChunkRow {
  row_id : Z;
  document_id : Z;
  chunk_index : Z;
  content : list rune;
  start_offset : Z;
  end_offset : Z;
  embedding : list Z  (* the blob, as bytes *)
}.

(** The database reachable through the [*sql.DB] handle: both tables, the
    AUTOINCREMENT counters of [sqlite_sequence], and the connection's
    [PRAGMA foreign_keys] setting. *)
Record DB := mkDB {
  documents : list Document;
  chunks : list ChunkRow;
  seq_documents : Z;
  seq_chunks : Z;
  foreign_keys : bool
}.

(** [NewDatabase]: [sql.Open("sqlite3", dbPath)] with a plain path sets no
    [_foreign_keys] option, so SQLite's default [foreign_keys = OFF] stays in
    force; the migrations create two empty tables. [vec_ok] is whether
    [SELECT vec_version()] succeeds, [migrate_ok] whether the schema runs. *)
Definition NewDatabase (vec_ok migrate_ok : bool) : outcome DB :=
  if negb vec_ok then Fail "sqlite-vec not available"
  else if negb migrate_ok then Fail "failed to run migrations"
  else Ret (mkDB [] [] 0 0 false).

(** [serializeEmbedding]: [binary.Write] of a [[]float32] in little-endian. *)
Definition le_bytes32 (w : Z) : list Z :=
  [Z.land w 255; Z.land (Z.shiftr w 8) 255; Z.land (Z.shiftr w 16) 255;
   Z.land (Z.shiftr w 24) 255].

Definition serializeEmbedding (e : list Z) : list Z := flat_map le_bytes32 e.

(** *** SQL statements used by the store, with SQLite's semantics *)

(** [DELETE FROM documents WHERE source = ?]: returns the rows affected;
    [ON DELETE CASCADE] only acts when foreign keys are enforced. *)
Definition sql_delete_documents (db : DB) (source : string) : DB * Z :=
  let gone := filter (fun d => String.eqb (Source d) source) (documents db) in
  let kept := filter (fun d => negb (String.eqb (Source d) source)) (documents db) in
  let is_gone (id : Z) := existsb (fun d => ID d =? id) gone in
  let chunks' := if foreign_keys db
                 then filter (fun c => negb (is_gone (document_id c))) (chunks db)
                 else chunks db in
  (mkDB kept chunks' (seq_documents db) (seq_chunks db) (foreign_keys db),
   Z.of_nat (List.length gone)).

Definition max_id (ids : list Z) : Z := fold_right Z.max 0 ids.

(** [INSERT INTO documents (...)]: AUTOINCREMENT id, UNIQUE [source];
    returns the new id ([LastInsertId]). [now] is [CURRENT_TIMESTAMP]. *)
Definition sql_insert_document (db : DB) (source sourceType : string) (contentSize chunkCount : Z)
    (title : string) (now : Z) : option (DB * Z) :=
  if existsb (fun d => String.eqb (Source d) source) (documents db) then None
  else
    let id := Z.max (seq_documents db) (max_id (map ID (documents db))) + 1 in
    Some (mkDB (documents db ++ [mkDocument id source sourceType now contentSize chunkCount title])
               (chunks db) id (seq_chunks db) (foreign_keys db), id).

(** [INSERT INTO chunks (...)]; the foreign key is only checked when
    foreign keys are enforced. *)
Definition sql_insert_chunk (db : DB) (docID chunkIndex : Z) (content : list rune)
    (startOffset endOffset : Z) (blob : list Z) : option DB :=
  if foreign_keys db && negb (existsb (fun d => ID d =? docID) (documents db)) then None
  else
    let id := Z.max (seq_chunks db) (max_id (map row_id (chunks db))) + 1 in
    Some (mkDB (documents db)
               (chunks db ++ [mkChunkRow id docID chunkIndex content startOffset endOffset blob])
               (seq_documents db) id (foreign_keys db)).

(** The steps of [IndexDocument] that can fail for reasons outside the
    program (I/O, locking, constraints); [fault s] says whether step [s]
    fails. *)
Inductive step :=
  | BeginTx | DeleteExisting | InsertDocument | LastInsertId | PrepareInsert
  | InsertChunk (n : nat) | CommitTx.

Inductive result := Ok | Err (msg : string).

(** The chunk-insert loop, on the transaction's working copy. *)
Fixpoint insert_chunks (fault : step -> bool) (tx : DB) (documentID : Z) (n : nat)
    (cs : list Chunk) : outcome DB :=
  match cs with
  | [] => Ret tx
  | c :: rest =>
      let embeddingBlob := serializeEmbedding (Embedding c) in
      if fault (InsertChunk n) then Fail "failed to insert chunk"
      else match sql_insert_chunk tx documentID (ChunkIndex c) (Content c) (StartOffset c)
                   (EndOffset c) embeddingBlob with
           | None => Fail "failed to insert chunk"
           | Some tx' => insert_chunks fault tx' documentID (S n) rest
           end
  end.

Definition content_size (cs : list Chunk) : Z :=
  fold_left (fun acc c => acc + go_len (Content c)) cs 0.

(** [IndexDocument]: the statements run on a working copy [tx] of the
    database; [tx.Commit()] installs it, and the deferred [tx.Rollback()]
    discards it on every early return. *)
Definition IndexDocument (fault : step -> bool) (now : Z) (d : DB)
    (source sourceType title : string) (cs : list Chunk) : result * DB :=
  if fault BeginTx then (Err "failed to begin transaction", d) else
  let tx := d in
  if fault DeleteExisting then (Err "failed to delete existing document", d) else
  let (tx, _) := sql_delete_documents tx source in
  let contentSize := content_size cs in
  if fault InsertDocument then (Err "failed to insert document", d) else
  match sql_insert_document tx source sourceType contentSize (Z.of_nat (List.length cs)) title now with
  | None => (Err "failed to insert document", d)
  | Some (tx, documentID) =>
    if fault LastInsertId then (Err "failed to get document ID", d) else
    if fault PrepareInsert then (Err "failed to prepare chunk insert", d) else
    match insert_chunks fault tx documentID 0 cs with
    | Ret tx => if fault CommitTx then (Err "commit failed", d) else (Ok, tx)
    | Fail m => (Err m, d)
    | Panic m => (Err m, d)
    end
  end.

(** [DeleteDocument]: a single auto-committed statement. [exec_fails] and
    [rows_fails] are the failures of [Exec] and [RowsAffected]. *)
Definition DeleteDocument (exec_fails rows_fails : bool) (d : DB) (source : string) : result * DB :=
  if exec_fails then (Err "failed to delete document", d) else
  let (d', rowsAffected) := sql_delete_documents d source in
  if rows_fails then (Err "failed to get rows affected", d')
  else if rowsAffected =? 0 then (Err ("document not found: " ++ source), d')
  else (Ok, d').

(** [DocumentExists] *)
Definition DocumentExists (d : DB) (source : string) : bool :=
  existsb (fun doc => String.eqb (Source doc) source) (documents d).

(** *** Search *)

Record SearchResult := mkSearchResult {
  rContent : list rune;
  rSource : string;
  rChunkIndex : Z;
  rScore : Q
}.

(** A row of the joined query: the chunk, its document, and its score. *)
Definition Row := (ChunkRow * Document * Q)%type.
Definition row_score (r : Row) : Q := snd r.

(** [FROM chunks c JOIN documents d ON c.document_id = d.id], in table
    order, with the score [1 - vec_distance_cosine(c.embedding, ?)]. *)
Definition join_rows (score : list Z -> list Z -> Q) (d : DB) (queryBlob : list Z) : list Row :=
  flat_map (fun c =>
     map (fun doc => (c, doc, score (embedding c) queryBlob))
         (filter (fun doc => ID doc =? document_id c) (documents d)))
    (chunks d).

(** [AND d.source = ?] when a filter is given. *)
Definition where_source (sourceFilter : string) (rows : list Row) : list Row :=
  if String.eqb sourceFilter "" then rows
  else filter (fun r => String.eqb (Source (snd (fst r))) sourceFilter) rows.

(** [ORDER BY score DESC]: a stable sort, descending. *)
Fixpoint insert_desc (x : Row) (l : list Row) : list Row :=
  match l with
  | [] => [x]
  | y :: l' => if Qle_bool (row_score x) (row_score y) then y :: insert_desc x l'
               else x :: l
  end.

Definition order_desc (rows : list Row) : list Row :=
  fold_left (fun acc x => insert_desc x acc) rows [].

(** [LIMIT ?]: SQLite reads a negative limit as no limit. *)
Definition sql_limit {A} (k : Z) (l : list A) : list A :=
  if k <? 0 then l else firstn (Z.to_nat k) l.

Definition ranked_rows (score : list Z -> list Z -> Q) (d : DB) (queryBlob : list Z)
    (sourceFilter : string) : list Row :=
  order_desc (where_source sourceFilter (join_rows score d queryBlob)).

(** The rows the [rows.Next()] loop keeps: [result.Score >= minScore]. *)
Definition search_rows (score : list Z -> list Z -> Q) (d : DB) (queryBlob : list Z)
    (topK : Z) (minScore : Q) (sourceFilter : string) : list Row :=
  filter (fun r => Qle_bool minScore (row_score r))
    (sql_limit topK (ranked_rows score d queryBlob sourceFilter)).

Definition to_result (r : Row) : SearchResult :=
  let '(c, doc, sc) := r in mkSearchResult (content c) (Source doc) (chunk_index c) sc.

(** [Search]; [query_fails] covers failures of [Query], [Scan] and
    [rows.Err()]. *)
Definition Search (score : list Z -> list Z -> Q) (query_fails : bool) (d : DB)
    (queryEmbedding : list Z) (topK : Z) (minScore : Q) (sourceFilter : string)
    : outcome (list SearchResult) :=
  if negb (Z.of_nat (List.length queryEmbedding) =? embeddingDimension) then
    Fail "invalid query embedding dimension"
  else if query_fails then Fail "failed to execute search query"
  else Ret (map to_result
              (search_rows score d (serializeEmbedding queryEmbedding) topK minScore sourceFilter)).

(** [deserializeEmbedding]: [binary.Read] into [make([]float32, 1536)]
    fills the slice from exactly [4 * 1536] bytes, read with
    [io.ReadFull]: no byte at all is [io.EOF], some but too few
    [io.ErrUnexpectedEOF]; bytes after them are not read. The target
    [&embedding] is a [*[]float32], which the fast path of [binary.Read]
    does not take: the reflect decoder stores each element with
    [SetFloat(float64(math.Float32frombits(u)))], and that round trip
    through [float64] sets the quiet bit of a signaling NaN ([quiet_nan]).
    Every other bit pattern of [binary.LittleEndian.Uint32] is kept. *)
Definition le_uint32 (b0 b1 b2 b3 : Z) : Z :=
  Z.lor (Z.lor (Z.lor b0 (Z.shiftl b1 8)) (Z.shiftl b2 16)) (Z.shiftl b3 24).

Fixpoint decode_le32 (n : nat) (bs : list Z) : list Z :=
  match n, bs with
  | S n', b0 :: b1 :: b2 :: b3 :: rest => le_uint32 b0 b1 b2 b3 :: decode_le32 n' rest
  | _, _ => []
  end.

(** float32 -> float64 -> float32 on a bit pattern: exponent all ones and
    a non-zero mantissa is a NaN, whose quiet bit (bit 22) becomes set. *)
Definition quiet_nan (u : Z) : Z :=
  if (Z.land (Z.shiftr u 23) 255 =? 255) && negb (Z.land u 8388607 =? 0)
  then Z.lor u 4194304 else u.

Definition deserializeEmbedding (data : list Z) : outcome (list Z) :=
  let size := (4 * Z.to_nat embeddingDimension)%nat in
  if Nat.ltb (List.length data) size then
    match data with [] => Fail "EOF" | _ => Fail "unexpected EOF" end
  else Ret (map quiet_nan (decode_le32 (Z.to_nat embeddingDimension) (firstn size data))).

(** [ORDER BY indexed_at DESC] of [ListDocuments]: an insertion sort,
    descending; rows with equal [indexed_at], whose order SQLite leaves
    open, keep table order. *)
Fixpoint insert_indexed_desc (x : Document) (l : list Document) : list Document :=
  match l with
  | [] => [x]
  | y :: l' => if IndexedAt x <=? IndexedAt y then y :: insert_indexed_desc x l' else x :: l
  end.

Definition order_indexed_desc (docs : list Document) : list Document :=
  fold_left (fun acc x => insert_indexed_desc x acc) docs [].

(** [ListDocuments]; [query_fails] covers failures of [Query], [Scan]
    and [rows.Err()]. *)
Definition ListDocuments (query_fails : bool) (d : DB) (sourceTypeFilter : string)
    : outcome (list Document) :=
  if query_fails then Fail "failed to list documents"
  else
    let rows := if String.eqb sourceTypeFilter "" then documents d
                else filter (fun doc => String.eqb (SourceType doc) sourceTypeFilter) (documents d) in
    Ret (order_indexed_desc rows).

End Storage.

(* ------------------------------------------------------------------ *)
(** ** Orchestrator: Delete (internal/search/search.go) *)

Module SearchSvc.

Record DeleteResponse := mkDeleteResponse { Source : string; Deleted : bool; Message : string }.

(** [Service.Delete]: the response and the returned Go [error] ([None] is
    [nil]). *)
Definition Delete (exec_fails rows_fails : bool) (d : Storage.DB) (source : string)
    : (DeleteResponse * option string) * Storage.DB :=
  match Storage.DeleteDocument exec_fails rows_fails d source with
  | (Storage.Err m, d') => ((mkDeleteResponse source false ("Failed to delete: " ++ m), None), d')
  | (Storage.Ok, d') =>
      ((mkDeleteResponse source true ("Successfully deleted " ++ source), None), d')
  end.

End SearchSvc.

(* ------------------------------------------------------------------ *)
(** ** Orchestrator: Search and Index (internal/search/search.go) *)

Module Service.

Record SearchRequest := mkSearchRequest {
  Query : string; TopK : Z; MinScore : Q; SourceFilter : string
}.

(** [SearchResultItem] has the fields of [storage.SearchResult] and is
    copied from it field by field, so the results are kept as they are. *)
Record SearchResponse := mkSearchResponse {
  Results : list Storage.SearchResult; Count : Z
}.

(** [Service.Search]: [env] is the embeddings provider, [score] and
    [query_fails] the database's search query as in [Storage.Search]. *)
Definition Search (env : Embeddings.Env) (score : list Z -> list Z -> Q) (query_fails : bool)
    (d : Storage.DB) (req : SearchRequest) : outcome SearchResponse :=
  let topK := if TopK req <=? 0 then 5 else TopK req in
  match fst (Embeddings.Embed env [Query req]) with
  | Fail m => Fail ("failed to embed query: " ++ m)
  | Panic m => Panic m
  | Ret embeddings =>
      match embeddings with
      | [] => Fail "no embedding returned for query"
      | queryEmbedding :: _ =>
          match Storage.Search score query_fails d queryEmbedding topK (MinScore req)
                  (SourceFilter req) with
          | Fail m => Fail ("failed to search database: " ++ m)
          | Panic m => Panic m
          | Ret results => Ret (mkSearchResponse results (Z.of_nat (List.length results)))
          end
      end
  end.

(** [IndexRequest]; [Content] is the Go string as its runes. *)
Record IndexRequest := mkIndexRequest {
  FilePath : string; URL : string; Content : list rune; Source : string; Reindex : bool
}.

Record IndexResponse := mkIndexResponse {
  resSource : string; resSourceType : string; resChunkCount : Z; resMessage : string
}.

(** What [Index] depends on outside the program: [os.ReadFile] (the runes
    of the file, [None] on error), [fetcher.FetchURL] (content and title),
    whether [DocumentExists]'s query fails, the embeddings provider, the
    failing steps of [IndexDocument] and its [CURRENT_TIMESTAMP]. *)
Record IndexEnv := mkIndexEnv {
  read_file : string -> option (list rune);
  fetch_url : string -> outcome (list rune * string);
  exists_fails : bool;
  emb : Embeddings.Env;
  fault : Storage.step -> bool;
  now : Z
}.

Definition is_empty {A} (l : list A) : bool := match l with [] => true | _ => false end.

Definition to_storage (ch : Chunker.Chunk) (e : list Z) : Storage.Chunk :=
  Storage.mkChunk (Chunker.Index ch) (Chunker.Content ch) (Chunker.StartOffset ch)
    (Chunker.EndOffset ch) e.

(** The content to index: [(source, sourceType, content, title)]. *)
Definition fetch_content (env : IndexEnv) (req : IndexRequest) (hasFilePath hasURL : bool)
    : outcome (string * string * list rune * string) :=
  if hasFilePath then
    match read_file env (FilePath req) with
    | Some t => Ret (FilePath req, "file"%string, t, ""%string)
    | None => Fail "failed to read file"
    end
  else if hasURL then
    match fetch_url env (URL req) with
    | Ret (t, ti) => Ret (URL req, "url"%string, t, ti)
    | Fail m => Fail ("failed to fetch URL: " ++ m)
    | Panic m => Panic m
    end
  else Ret (Source req, "content"%string, Content req, ""%string).

(** [Service.Index] with the chunker [c]; [None] when [ChunkText] has not
    returned within [fuel] iterations. *)
Definition Index (fuel : nat) (c : Chunker.Chunker) (env : IndexEnv) (d : Storage.DB)
    (req : IndexRequest) : option (outcome IndexResponse * Storage.DB) :=
  let hasFilePath := negb (String.eqb (FilePath req) "") in
  let hasURL := negb (String.eqb (URL req) "") in
  let hasContent := negb (is_empty (Content req)) && negb (String.eqb (Source req) "") in
  let sourceCount := (if hasFilePath then 1 else 0) + (if hasURL then 1 else 0)
                     + (if hasContent then 1 else 0) in
  if sourceCount =? 0 then
    Some (Fail "must provide exactly one of: file_path, url, or (content + source)", d)
  else if sourceCount >? 1 then
    Some (Fail "provide exactly one of: file_path, url, or (content + source)", d)
  else
  match fetch_content env req hasFilePath hasURL with
  | Fail m => Some (Fail m, d)
  | Panic m => Some (Panic m, d)
  | Ret (source, sourceType, content, title) =>
    if negb (Reindex req) && exists_fails env then
      Some (Fail "failed to check if document exists", d)
    else if negb (Reindex req) && Storage.DocumentExists d source then
      Some (Fail ("document already indexed: " ++ source), d)
    else
    match Chunker.ChunkText fuel c content with
    | None => None
    | Some chunks =>
      if Nat.eqb (List.length chunks) 0 then
        Some (Fail "no chunks generated from content (is the content empty?)", d)
      else
      let chunkTexts := map (fun ch => string_of_runes (Chunker.Content ch)) chunks in
      match fst (Embeddings.Embed (emb env) chunkTexts) with
      | Fail m => Some (Fail ("failed to embed chunks: " ++ m), d)
      | Panic m => Some (Panic m, d)
      | Ret chunkEmbeddings =>
        if negb (Nat.eqb (List.length chunkEmbeddings) (List.length chunks)) then
          Some (Fail "embedding count mismatch", d)
        else
        let storageChunks := map (fun p => to_storage (fst p) (snd p))
                                 (combine chunks chunkEmbeddings) in
        match Storage.IndexDocument (fault env) (now env) d source sourceType title storageChunks with
        | (Storage.Err m, d') => Some (Fail ("failed to store document: " ++ m), d')
        | (Storage.Ok, d') =>
            Some (Ret (mkIndexResponse source sourceType (Z.of_nat (List.length chunks))
                         ("Successfully indexed " ++ source)), d')
        end
      end
    end
  end.

End Service.

(* ------------------------------------------------------------------ *)
(** ** URL fetcher helpers (internal/fetcher/fetcher.go) *)

Module Fetcher.

(** [strings.Fields] on the runes of a string: the maximal runs of runes
    that are not [unicode.IsSpace]. [fields_r] returns the run the text
    starts with and the fields after it. *)
Fixpoint fields_r (s : list rune) : list rune * list (list rune) :=
  match s with
  | [] => ([], [])
  | r :: s' =>
      let (w, ws) := fields_r s' in
      if isSpace r then ([], match w with [] => ws | _ => w :: ws end)
      else (r :: w, ws)
  end.

Definition Fields (s : list rune) : list (list rune) :=
  let (w, ws) := fields_r s in match w with [] => ws | _ => w :: ws end.

(** [strings.Join(elems, sep)] *)
Fixpoint Join (elems : list (list rune)) (sep : list rune) : list rune :=
  match elems with
  | [] => []
  | [e] => e
  | e :: rest => e ++ sep ++ Join rest sep
  end.

Definition normalizeWhitespace (text : list rune) : list rune := Join (Fields text) [32].

(** [strings.ToLower] on an ASCII string (Go's ASCII path: A-Z to a-z);
    strings with other bytes are outside this model ([None]). *)
Definition lower_ascii (a : ascii) : ascii :=
  let n := nat_of_ascii a in
  if Nat.leb 65 n && Nat.leb n 90 then ascii_of_nat (n + 32) else a.

Definition is_ascii (s : string) : bool :=
  forallb (fun a => Nat.ltb (nat_of_ascii a) 128) (list_ascii_of_string s).

Definition ToLower (s : string) : option string :=
  if is_ascii s then Some (string_of_list_ascii (map lower_ascii (list_ascii_of_string s)))
  else None.

(** [strings.Contains(s, substr)] *)
Fixpoint Contains (s substr : string) : bool :=
  String.prefix substr s || match s with EmptyString => false | String _ s' => Contains s' substr end.

Definition isTextContent (contentType : string) : option bool :=
  match ToLower contentType with
  | None => None
  | Some ct =>
      Some (Contains ct "text/plain" || Contains ct "text/html" || Contains ct "text/markdown"
            || Contains ct "text/")
  end.

End Fetcher.

(* ------------------------------------------------------------------ *)
(** ** Configuration (internal/config/config.go) *)

Module Config.
Local Open Scope string_scope.

Record Config := mkConfig {
  OpenAIAPIKey : string; DBPath : string; ChunkSize : Z; Overlap : Z
}.

(** [getenv] is [os.Getenv]: [""] for an unset variable. *)
Definition getEnvOrDefault (getenv : string -> string) (key defaultValue : string) : string :=
  let value := getenv key in if String.eqb value "" then defaultValue else value.

Definition digit_of (a : ascii) : option Z :=
  let n := nat_of_ascii a in
  if Nat.leb 48 n && Nat.leb n 57 then Some (Z.of_nat n - 48)%Z else None.

Fixpoint digits_value (acc : Z) (s : string) : option Z :=
  match s with
  | EmptyString => Some acc
  | String a s' => match digit_of a with
                   | Some k => digits_value (acc * 10 + k)%Z s'
                   | None => None
                   end
  end.

(** [strconv.Atoi] with a 64-bit [int]: an optional sign, then at least
    one decimal digit, with a value in range. *)
Definition Atoi (s : string) : option Z :=
  let '(neg, body) := match s with
                      | String "-"%char s' => (true, s')
                      | String "+"%char s' => (false, s')
                      | _ => (false, s)
                      end in
  match body with
  | EmptyString => None
  | _ => match digits_value 0 body with
         | None => None
         | Some u => let n := if neg then (- u)%Z else u in
                     if ((- 2 ^ 63 <=? n) && (n <? 2 ^ 63))%Z then Some n else None
         end
  end.

Definition getEnvAsIntOrDefault (getenv : string -> string) (key : string) (defaultValue : Z) : Z :=
  let valueStr := getenv key in
  if String.eqb valueStr "" then defaultValue
  else match Atoi valueStr with Some v => v | None => defaultValue end.

Definition LoadConfig (getenv : string -> string) : outcome Config :=
  let cfg := mkConfig (getenv "OPENAI_API_KEY") (getEnvOrDefault getenv "DB_PATH" "db_data/doc_search.db")
               (getEnvAsIntOrDefault getenv "CHUNK_SIZE" 1000) (getEnvAsIntOrDefault getenv "OVERLAP" 100) in
  if String.eqb (OpenAIAPIKey cfg) "" then Fail "OPENAI_API_KEY environment variable is required"
  else if (ChunkSize cfg <=? 0)%Z then Fail "CHUNK_SIZE must be positive"
  else if (Overlap cfg <? 0)%Z then Fail "OVERLAP must be non-negative"
  else if (Overlap cfg >=? ChunkSize cfg)%Z then Fail "OVERLAP must be less than CHUNK_SIZE"
  else Ret cfg.

End Config.

(* ------------------------------------------------------------------ *)
(** ** Properties and concrete inputs used by the statements below *)

Module EmbeddingsSpec.
Import Embeddings.

(** A provider is faithful to [emb] when every item of a decoded response
    whose tag is a position of the batch carries [emb] of the text there;
    nothing is assumed about the order or the number of items. *)
Definition honest (emb : string -> vector) (env : Env) : Prop :=
  forall batch attempt st resp,
    http_do env batch attempt = Response st (Body (Some resp)) ->
    forall item, In item (Data resp) ->
    0 <= Index item < Z.of_nat (List.length batch) ->
    Embedding item = emb (nth (Z.to_nat (Index item)) batch ""%string).

(** Items [(k, emb t0); (k+1, emb t1); ...] for a batch. *)
Fixpoint tag (emb : string -> vector) (k : Z) (batch : list string) : list dataItem :=
  match batch with
  | [] => []
  | t :: rest => mkItem (emb t) k :: tag emb (k + 1) rest
  end.

(** A sample embedding: every coordinate is the text's length. *)
Definition emb_len (t : string) : vector := repeat (Z.of_nat (String.length t)) 1536.

(** A provider that answers every batch at once, with the items in
    reverse order. *)
Definition env_rev : Env :=
  mkEnv (fun batch _ => Response 200 (Body (Some (mkResponse (rev (tag emb_len 0 batch)) None))))
        (fun _ => true) (fun _ => true).

(** 150 texts, so two batches (100 + 50). *)
Definition texts150 : list string :=
  map (fun n => String.string_of_list_ascii (repeat "a"%char n)) (seq 1 150).

(** A provider whose single item is tagged -1. *)
Definition env_negative_tag : Env :=
  mkEnv (fun _ _ => Response 200 (Body (Some (mkResponse [mkItem (repeat 0 1536) (-1)] None))))
        (fun _ => true) (fun _ => true).

(** A slot of the reassembly array: not yet written, or [emb] of the text
    at that position. *)
Definition slot_ok (emb : string -> vector) (o : option vector) (t : string) : Prop :=
  o = None \/ o = Some (emb t).

End EmbeddingsSpec.

Module StorageSpec.
Import Storage.

Definition no_fault : step -> bool := fun _ => false.

(** The database [NewDatabase] opens on a fresh file. *)
Definition db0 : DB := mkDB [] [] 0 0 false.

(** A sample score: the first byte of the chunk's blob, over 100. *)
Definition score_first_byte (blob _query : list Z) : Q := (hd 0 blob) # 100.

Definition query1536 : list Z := repeat 0 1536.

Definition chunk_a : Chunk := mkChunk 0 [104; 105] 0 2 [30].
Definition chunk_b : Chunk := mkChunk 1 [105; 106] 1 3 [80].

(** The database after indexing one document "doc" with two chunks. *)
Definition db_ab : DB := snd (IndexDocument no_fault 0 db0 "doc" "content" "" [chunk_a; chunk_b]).

(** ... then after [DeleteDocument("doc")]. *)
Definition db_ab_deleted : DB := snd (DeleteDocument false false db_ab "doc").

(** ... or after reindexing "doc" with one chunk. *)
Definition db_ab_reindexed : DB := snd (IndexDocument no_fault 1 db_ab "doc" "content" "" [chunk_b]).

(** A chunk whose content is the two CJK code points U+4E16 U+754C. *)
Definition chunk_cjk : Chunk := mkChunk 0 [19990; 30028] 0 2 [0].

(** A database with one document "a" (one chunk) and one document "b". *)
Definition db_two : DB :=
  snd (IndexDocument no_fault 1 (snd (IndexDocument no_fault 0 db0 "a" "content" "" [chunk_a]))
        "b" "content" "" [chunk_b]).

(** Default row for [nth]. *)
Definition row0 : Row := (mkChunkRow 0 0 0 [] 0 0 [], mkDocument 0 "" "" 0 0 0 "", 0%Q).

(** Descending by score. *)
Definition desc (a b : Row) : Prop := (row_score b <= row_score a)%Q.

(** The columns of a chunk row, and the values [IndexDocument] binds for
    an input chunk under document id [id]. *)
Definition chunk_fields (r : ChunkRow) :=
  (document_id r, chunk_index r, content r, start_offset r, end_offset r, embedding r).
Definition input_fields (id : Z) (c : Chunk) :=
  (id, ChunkIndex c, Content c, StartOffset c, EndOffset c, serializeEmbedding (Embedding c)).

(** Every document id and every chunk's [document_id] is at most the
    AUTOINCREMENT counter of [documents]. *)
Definition ids_bounded (d : DB) : Prop :=
  Forall (fun doc => ID doc <= seq_documents d) (documents d) /\
  Forall (fun c => document_id c <= seq_documents d) (chunks d).

(** [z] is an id already handed out that no document has. *)
Definition orphan_id (d : DB) (z : Z) : Prop :=
  z <= seq_documents d /\ forall doc, In doc (documents d) -> ID doc <> z.

End StorageSpec.

Module ChunkerSpec.
Import Chunker.

Definition d0 : Chunk := mkChunk [] 0 0 0.


(** Invariant of the chunking loop at the head of each iteration. *)
Definition loop_inv (ov totalLen position idx : Z) (acc : list Chunk) : Prop :=
  idx = Z.of_nat (length acc) /\
  map Index acc = map Z.of_nat (seq 0 (length acc)) /\
  Forall (fun ch => StartOffset ch < EndOffset ch) acc /\
  (ov > 0 -> forall i, (S i < length acc)%nat ->
     EndOffset (nth i acc d0) > StartOffset (nth (S i) acc d0)) /\
  match acc with
  | [] => position = 0
  | _ :: _ =>
      StartOffset (nth 0 acc d0) = 0 /\
      0 < EndOffset (nth (length acc - 1) acc d0) < totalLen /\
      position = (if EndOffset (nth (length acc - 1) acc d0) - ov <? 0 then 0
                  else EndOffset (nth (length acc - 1) acc d0) - ov)
  end.

(** What a completed run returns. *)
Definition chunks_ok (ov totalLen : Z) (cs : list Chunk) : Prop :=
  map Index cs = map Z.of_nat (seq 0 (length cs)) /\
  Forall (fun ch => StartOffset ch < EndOffset ch) cs /\
  cs <> [] /\
  StartOffset (nth 0 cs d0) = 0 /\
  EndOffset (nth (length cs - 1) cs d0) = totalLen /\
  (ov > 0 -> forall i, (S i < length cs)%nat ->
     EndOffset (nth i cs d0) > StartOffset (nth (S i) cs d0)).

Definition repeat_str (s : list rune) (n : nat) : list rune := concat (repeat s n).
Definition word_ : list rune := [119; 111; 114; 100; 32].


Definition word_text : list rune := concat (repeat [119; 111; 114; 100; 32] 30).


(** The chunks of [word_text] under [NewChunker 50 10]. *)
Definition word_chunks : list Chunk :=
  match ChunkText 100 (NewChunker 50 10) word_text with Some cs => cs | None => [] end.

(** A text whose only whitespace is its first code point. *)
Definition stuck_text : list rune := 32 :: repeat 97 30.

End ChunkerSpec.

Module ChunkerExtraSpec.
Import Chunker.

Definition d0 : Chunk := mkChunk [] 0 0 0.

(** A chunk is the text between its offsets and at most [chunkSize] long. *)
Definition chunk_slice (c : Chunker) (runes : list rune) (ch : Chunk) : Prop :=
  Content ch = slice runes (StartOffset ch) (EndOffset ch) /\ 0 <= StartOffset ch /\
  EndOffset ch - StartOffset ch <= chunkSize c.

(** No gap between consecutive chunks. *)
Definition no_gap (cs : list Chunk) : Prop :=
  forall i, (S i < length cs)%nat -> StartOffset (nth (S i) cs d0) <= EndOffset (nth i cs d0).

(** Invariant of the chunking loop for [chunk_slice] and [no_gap]. *)
Definition cover_inv (c : Chunker) (runes : list rune) (position : Z) (acc : list Chunk) : Prop :=
  Forall (chunk_slice c runes) acc /\ no_gap acc /\ 0 <= position /\
  (acc = [] \/ position <= EndOffset (nth (length acc - 1) acc d0)).

Definition repeat_str_words (n : nat) : list rune := concat (repeat [119; 111; 114; 100; 32] n).

Definition word_chunks_x : list Chunk :=
  match ChunkText 100 (NewChunker 50 10) (repeat_str_words 30) with Some cs => cs | None => [] end.

End ChunkerExtraSpec.

Module StorageExtraSpec.
Import Storage.

(** No two documents share a source or an id, and no two chunk rows
    share an id. *)
Definition keys_ok (d : DB) : Prop :=
  NoDup (map Source (documents d)) /\ NoDup (map ID (documents d)) /\
  NoDup (map row_id (chunks d)).

(** Newest first, by [indexed_at]. *)
Definition newer (a b : Document) : Prop := IndexedAt b <= IndexedAt a.

(** The [documents] rows that [ListDocuments] selects. *)
Definition listed_rows (d : DB) (sourceTypeFilter : string) : list Document :=
  filter (fun doc => String.eqb sourceTypeFilter "" || String.eqb (SourceType doc) sourceTypeFilter)
    (documents d).

End StorageExtraSpec.

Module EmbeddingsExtraSpec.
Import Embeddings.

(** A slot of the reassembly array holds nothing yet or a full vector. *)
Definition slot_dim (o : option vector) : Prop :=
  match o with Some v => Z.of_nat (length v) = embeddingDimension | None => True end.



(** The [k]-th batch of [Embed] over [texts]. *)
Definition batch_k (texts : list string) (k : nat) : list string :=
  firstn 100 (skipn (100 * k) texts).

End EmbeddingsExtraSpec.

Module ServiceExtraSpec.
Import Service.

(** A request with inline content and no file or URL. *)
Definition content_request (source : string) (content : list rune) (reindex : bool) : IndexRequest :=
  mkIndexRequest "" "" content source reindex.

(** An environment where nothing fails and the provider is [env_rev]. *)
Definition index_env : IndexEnv :=
  mkIndexEnv (fun _ => None) (fun _ => Fail "no network") false EmbeddingsSpec.env_rev
    StorageSpec.no_fault 0.

End ServiceExtraSpec.

Module FetcherExtraSpec.
Import Fetcher.

(** A field of [strings.Fields]: nonempty, with no space rune. *)
Definition field_ok (w : list rune) : Prop := w <> [] /\ Forall (fun r => isSpace r = false) w.

(** Every space rune is a single [' '] between two non-space runes: no
    leading, trailing or repeated whitespace. [prev_space] is whether the
    previous rune was a space (or the text starts). *)
Fixpoint single_spaced (prev_space : bool) (t : list rune) : bool :=
  match t with
  | [] => negb prev_space
  | r :: t' => if isSpace r then negb prev_space && (r =? 32) && single_spaced true t'
               else single_spaced false t'
  end.

Definition single_spaced_text (t : list rune) : bool :=
  match t with [] => true | _ => single_spaced true t end.

End FetcherExtraSpec.

Module ConfigExtraSpec.
Import Config.
Local Open Scope string_scope.

(** An environment with only [OPENAI_API_KEY] set. *)
Definition env_key_only (k : string) : string := if String.eqb k "OPENAI_API_KEY" then "sk-test" else "".

End ConfigExtraSpec.

Module ChunkerTests.
Import Chunker ChunkerSpec.

Example small_text :
  ChunkText 10 (NewChunker 1000 100) [72;101;108;108;111;32;119;111;114;108;100]
  = Some [mkChunk [72;101;108;108;111;32;119;111;114;108;100] 0 0 11].
Proof. reflexivity. Qed.

Example word_boundaries :
  option_map (map (fun ch => (StartOffset ch, EndOffset ch)))
    (ChunkText 100 (NewChunker 50 10) (repeat_str word_ 30))
  = Some [(0, 50); (40, 90); (80, 130); (120, 150)].
Proof. vm_compute. reflexivity. Qed.

End ChunkerTests.

(* ------------------------------------------------------------------ *)
(** ** Chunker: properties *)

Module ChunkerProofs.
Import Chunker ChunkerSpec.

(** Turn a boolean comparison on [Z] in a hypothesis into a proposition. *)
Ltac zbool H :=
  first [ apply Z.ltb_lt in H | apply Z.ltb_ge in H | apply Z.leb_le in H
        | apply Z.leb_gt in H | apply Z.eqb_eq in H | apply Z.eqb_neq in H
        | rewrite Z.gtb_ltb in H; zbool H | rewrite Z.geb_leb in H; zbool H ].

Lemma scan_back_range (runes : list rune) (i : Z) (n : nat) :
  scan_back runes i n = -1 \/ i - Z.of_nat n < scan_back runes i n <= i.
Proof.
  revert i; induction n as [|n IH]; intros i; simpl.
  - left; reflexivity.
  - destruct (isSpace (rune_at runes i)).
    + right; lia.
    + destruct (IH (i - 1)) as [H | H]; [left; exact H | right; lia].
Qed.

Lemma skip_ws_range (runes : list rune) (p : Z) (n : nat) :
  p <= skip_ws runes p n <= p + Z.of_nat n.
Proof.
  revert p; induction n as [|n IH]; intros p; simpl.
  - lia.
  - destruct (isSpace (rune_at runes p)); [specialize (IH (p + 1)); lia | lia].
Qed.

Lemma findWordBoundary_range (c : Chunker) (runes : list rune) (startPos endPos : Z) :
  0 < chunkSize c -> 0 <= startPos < endPos ->
  startPos < findWordBoundary c runes startPos endPos <= endPos.
Proof.
  intros Hc Hse. unfold findWordBoundary.
  set (m := if 100 >? chunkSize c then chunkSize c else 100).
  assert (Hm : 0 < m) by (unfold m; destruct (100 >? chunkSize c); lia).
  set (s := if endPos - m <? startPos then startPos else endPos - m).
  assert (Hs : startPos <= s < endPos) by (unfold s; destruct (endPos - m <? startPos) eqn:E; lia).
  destruct (scan_back_range runes (endPos - 1) (Z.to_nat (endPos - s))) as [H | H].
  - rewrite H; simpl. lia.
  - rewrite Z2Nat.id in H by lia.
    set (r := scan_back runes (endPos - 1) (Z.to_nat (endPos - s))) in *.
    replace (r >=? 0) with true by (symmetry; apply Z.geb_le; lia).
    pose proof (skip_ws_range runes (r + 1) (Z.to_nat (endPos - (r + 1)))) as Hw.
    rewrite Z2Nat.id in Hw by lia. lia.
Qed.

Lemma nth_snoc_last {A} (l : list A) (x d : A) : nth (length (l ++ [x]) - 1) (l ++ [x]) d = x.
Proof.
  rewrite length_app; simpl. replace (length l + 1 - 1)%nat with (length l) by lia.
  rewrite app_nth2 by lia. rewrite Nat.sub_diag. reflexivity.
Qed.

Lemma match_nonempty {A} (l : list A) (P Q : Prop) :
  l <> [] -> Q -> match l with [] => P | _ :: _ => Q end.
Proof. destruct l; [contradiction | auto]. Qed.

Lemma snoc_props (ov totalLen position idx : Z) (acc : list Chunk) (x : Chunk) :
  loop_inv ov totalLen position idx acc -> 0 <= ov ->
  Index x = idx -> StartOffset x = position -> StartOffset x < EndOffset x ->
  map Index (acc ++ [x]) = map Z.of_nat (seq 0 (length (acc ++ [x]))) /\
  Forall (fun ch => StartOffset ch < EndOffset ch) (acc ++ [x]) /\
  StartOffset (nth 0 (acc ++ [x]) d0) = 0 /\
  (ov > 0 -> forall i, (S i < length (acc ++ [x]))%nat ->
     EndOffset (nth i (acc ++ [x]) d0) > StartOffset (nth (S i) (acc ++ [x]) d0)).
Proof.
  intros (Hidx & Hmap & Hlt & Hov & Hlast) Hov0 Hix Hsx Hx.
  split; [|split; [|split]].
  - rewrite map_app, Hmap, length_app, seq_app, map_app; simpl. rewrite Hix, Hidx. reflexivity.
  - apply Forall_app; split; [exact Hlt | constructor; [exact Hx | constructor]].
  - destruct acc as [|a acc']; simpl.
    + simpl in Hlast. lia.
    + destruct Hlast as (H0 & _); exact H0.
  - intros Hpos i Hi. rewrite length_app in Hi; simpl in Hi.
    destruct (Nat.lt_ge_cases (S i) (length acc)) as [Hl | Hl].
    + rewrite !app_nth1 by lia. apply Hov; assumption.
    + assert (S i = length acc) by lia.
      rewrite app_nth1 by lia. rewrite app_nth2 by lia.
      replace (S i - length acc)%nat with 0%nat by lia. simpl.
      destruct acc as [|a acc']; [simpl in *; lia|].
      destruct Hlast as (_ & Hend & Hp).
      replace i with (length (a :: acc') - 1)%nat by lia.
      destruct (EndOffset (nth (length (a :: acc') - 1) (a :: acc') d0) - ov <? 0) eqn:E;
        [|apply Z.ltb_ge in E]; lia.
Qed.

Lemma chunk_step_inv (c : Chunker) (runes : list rune) (totalLen position idx : Z)
    (acc : list Chunk) :
  0 < chunkSize c -> 0 <= overlap c -> position < totalLen ->
  loop_inv (overlap c) totalLen position idx acc ->
  match chunk_step c runes totalLen position idx acc with
  | Done cs => chunks_ok (overlap c) totalLen cs
  | Next p i cs => loop_inv (overlap c) totalLen p i cs
  end.
Proof.
  intros Hc Hov Hpt Hinv.
  assert (Hp0 : 0 <= position).
  { destruct Hinv as (_ & _ & _ & _ & Hl). destruct acc; [lia|].
    destruct Hl as (_ & _ & ->). destruct (_ <? 0) eqn:E; [|apply Z.ltb_ge in E]; lia. }
  unfold chunk_step.
  set (endPos := if position + chunkSize c >? totalLen then totalLen else position + chunkSize c).
  assert (He : position < endPos <= totalLen)
    by (unfold endPos; destruct (position + chunkSize c >? totalLen) eqn:E;
        zbool E; lia).
  set (actualEnd := if endPos <? totalLen then findWordBoundary c runes position endPos else endPos).
  assert (Ha : position < actualEnd <= endPos).
  { unfold actualEnd. destruct (endPos <? totalLen).
    - apply findWordBoundary_range; lia.
    - lia. }
  set (x := mkChunk (slice runes position actualEnd) idx position actualEnd).
  destruct (snoc_props (overlap c) totalLen position idx acc x Hinv Hov eq_refl eq_refl)
    as (Hm & Hf & H0 & Hovl); [simpl; lia|].
  destruct Hinv as (Hidx & _).
  destruct (actualEnd >=? totalLen) eqn:Eend.
  - zbool Eend.
    split; [exact Hm|]. split; [exact Hf|]. split; [destruct acc; discriminate|].
    split; [exact H0|]. split; [rewrite nth_snoc_last; simpl; lia|exact Hovl].
  - zbool Eend.
    split; [rewrite length_app; simpl; lia|].
    split; [exact Hm|]. split; [exact Hf|]. split; [exact Hovl|].
    apply match_nonempty; [destruct acc; discriminate|].
    rewrite nth_snoc_last. simpl.
    split; [exact H0|]. split; [lia|]. reflexivity.
Qed.

Lemma chunk_loop_ok (fuel : nat) (c : Chunker) (runes : list rune) (totalLen position idx : Z)
    (acc cs : list Chunk) :
  0 < chunkSize c -> 0 <= overlap c -> 0 < totalLen ->
  loop_inv (overlap c) totalLen position idx acc ->
  chunk_loop fuel c runes totalLen position idx acc = Some cs ->
  chunks_ok (overlap c) totalLen cs.
Proof.
  revert position idx acc.
  induction fuel as [|fuel IH]; intros position idx acc Hc Hov Ht Hinv Hrun; simpl in Hrun.
  - discriminate.
  - destruct (position <? totalLen) eqn:Ep.
    + apply Z.ltb_lt in Ep.
      pose proof (chunk_step_inv c runes totalLen position idx acc Hc Hov Ep Hinv) as Hs.
      destruct (chunk_step c runes totalLen position idx acc) as [cs' | p i cs'].
      * injection Hrun as <-. exact Hs.
      * exact (IH p i cs' Hc Hov Ht Hs Hrun).
    + exfalso. apply Z.ltb_ge in Ep.
      destruct Hinv as (_ & _ & _ & _ & Hl). destruct acc; [lia|].
      destruct Hl as (_ & Hend & ->).
      destruct (_ <? 0) eqn:E; [|apply Z.ltb_ge in E]; lia.
Qed.

Lemma NewChunker_bounds (chunkSize_ overlap_ : Z) :
  0 < chunkSize (NewChunker chunkSize_ overlap_) /\ 0 <= overlap (NewChunker chunkSize_ overlap_).
Proof.
  unfold NewChunker; cbn.
  repeat match goal with
         | |- context [if ?b then _ else _] => let E := fresh "E" in destruct b eqn:E; zbool E
         end; split; try lia; apply Z.div_pos; lia.
Qed.

End ChunkerProofs.

Module ChunkerClaims.
Import Chunker ChunkerSpec ChunkerProofs.

(** C5: for every non-empty text on which [ChunkText] completes, the chunk
    indices are exactly [0..n-1], every chunk has start < end, the first
    chunk starts at 0, the last one ends at the code-point length of the
    text, and when overlap > 0 consecutive chunks overlap. *)
Theorem ChunkText_completed_ok (fuel : nat) (chunkSize_ overlap_ : Z) (runes : list rune)
    (cs : list Chunk) :
  runes <> [] ->
  ChunkText fuel (NewChunker chunkSize_ overlap_) runes = Some cs ->
  map Index cs = map Z.of_nat (seq 0 (length cs)) /\
  Forall (fun ch => StartOffset ch < EndOffset ch) cs /\
  StartOffset (nth 0 cs d0) = 0 /\
  EndOffset (nth (length cs - 1) cs d0) = Z.of_nat (length runes) /\
  (overlap (NewChunker chunkSize_ overlap_) > 0 -> forall i, (S i < length cs)%nat ->
     EndOffset (nth i cs d0) > StartOffset (nth (S i) cs d0)).
Proof.
  intros Hne Hrun.
  destruct (NewChunker_bounds chunkSize_ overlap_) as [Hc Hov].
  set (c := NewChunker chunkSize_ overlap_) in *.
  unfold ChunkText in Hrun. destruct runes as [|r rs]; [contradiction|].
  set (n := Z.of_nat (length (r :: rs))) in *.
  assert (Hn : 0 < n) by (unfold n; simpl; lia).
  destruct (n <=? chunkSize c) eqn:E.
  - injection Hrun as <-. simpl.
    split; [reflexivity|]. split; [constructor; [simpl; lia | constructor]|].
    split; [reflexivity|]. split; [reflexivity|]. intros _ i Hi. simpl in Hi; lia.
  - assert (Hinv : loop_inv (overlap c) n 0 0 []).
    { repeat split; simpl; try lia; try constructor. }
    destruct (chunk_loop_ok _ _ _ _ _ _ _ _ Hc Hov Hn Hinv Hrun)
      as (Hm & Hf & _ & H0 & Hl & Ho).
    split; [exact Hm|]. split; [exact Hf|]. split; [exact H0|]. split; [exact Hl|exact Ho].
Qed.

Lemma ChunkText_completed_ok_witness :
  word_text <> [] /\ ChunkText 100 (NewChunker 50 10) word_text = Some word_chunks /\
  map Index word_chunks = map Z.of_nat (seq 0 (length word_chunks)) /\
  Forall (fun ch => StartOffset ch < EndOffset ch) word_chunks /\
  StartOffset (nth 0 word_chunks d0) = 0 /\
  EndOffset (nth (length word_chunks - 1) word_chunks d0) = Z.of_nat (length word_text) /\
  (overlap (NewChunker 50 10) > 0 -> forall i, (S i < length word_chunks)%nat ->
     EndOffset (nth i word_chunks d0) > StartOffset (nth (S i) word_chunks d0)).
Proof.
  assert (Hne : word_text <> []) by (vm_compute; discriminate).
  assert (E : ChunkText 100 (NewChunker 50 10) word_text = Some word_chunks)
    by (vm_compute; reflexivity).
  split; [exact Hne|]. split; [exact E|].
  exact (ChunkText_completed_ok 100 50 10 word_text word_chunks Hne E).
Defined.

Lemma stuck_step (idx : Z) (acc : list Chunk) :
  chunk_step (NewChunker 20 5) stuck_text 31 0 idx acc
  = Next 0 (idx + 1) (acc ++ [mkChunk [32] idx 0 1]).
Proof. vm_compute. reflexivity. Qed.

Lemma chunk_loop_S (f : nat) (c : Chunker) (runes : list rune) (t p i : Z) (acc : list Chunk) :
  chunk_loop (S f) c runes t p i acc
  = if p <? t then
      match chunk_step c runes t p i acc with
      | Done cs => Some cs
      | Next p' i' cs => chunk_loop f c runes t p' i' cs
      end
    else Some acc.
Proof. reflexivity. Qed.

(** C4 (refuted): with the chunker configuration [NewChunker 20 5] (used
    by the repository's tests) and the 31-code-point text " aaa...a", each
    iteration cuts right after the leading space, at 1, and moves back to
    [position = 0]: the loop never reaches the end of the text, for any
    number of iterations. *)
Theorem ChunkText_does_not_terminate (fuel : nat) :
  ChunkText fuel (NewChunker 20 5) stuck_text = None.
Proof.
  assert (H : forall f idx acc, chunk_loop f (NewChunker 20 5) stuck_text 31 0 idx acc = None).
  { induction f as [|f IH]; intros idx acc; [reflexivity|].
    rewrite chunk_loop_S, stuck_step. exact (IH _ _). }
  exact (H fuel 0 []).
Qed.

End ChunkerClaims.

Module EmbeddingsProofs.
Import Embeddings EmbeddingsSpec.

Section Reassembly.
Variable emb : string -> vector.

Lemma list_set_ok (e : list (option vector)) (batch : list string) (i : nat) :
  Forall2 (slot_ok emb) e batch -> (i < List.length batch)%nat ->
  Forall2 (slot_ok emb) (list_set e i (Some (emb (nth i batch ""%string)))) batch.
Proof.
  intros H; revert i; induction H as [|o t e' batch' Ho H IH]; intros i Hi; simpl in *.
  - lia.
  - destruct i as [|i]; constructor; auto.
    + right; reflexivity.
    + apply IH; lia.
Qed.

Lemma fill_ok (batch : list string) (items : list dataItem) (e e' : list (option vector)) :
  Forall2 (slot_ok emb) e batch ->
  (forall item, In item items -> 0 <= Index item < Z.of_nat (List.length batch) ->
     Embedding item = emb (nth (Z.to_nat (Index item)) batch ""%string)) ->
  fill e items = Ret e' -> Forall2 (slot_ok emb) e' batch.
Proof.
  revert e; induction items as [|item rest IH]; intros e He Hitems Hfill; simpl in Hfill.
  - injection Hfill as <-; exact He.
  - pose proof (Forall2_length He) as Hlen.
    destruct (Index item >=? Z.of_nat (List.length e)) eqn:E1; [discriminate|].
    destruct (negb (Z.of_nat (List.length (Embedding item)) =? embeddingDimension)); [discriminate|].
    unfold go_set in Hfill.
    destruct ((0 <=? Index item) && (Index item <? Z.of_nat (List.length e))) eqn:E2; [|discriminate].
    apply andb_prop in E2 as [E2 E3]. apply Z.leb_le in E2. apply Z.ltb_lt in E3.
    apply (IH (list_set e (Z.to_nat (Index item)) (Some (Embedding item)))).
    + rewrite (Hitems item (or_introl eq_refl)) by lia.
      apply list_set_ok; [exact He | lia].
    + intros it Hin; apply Hitems; right; exact Hin.
    + exact Hfill.
Qed.

Lemma all_present_ok (e : list (option vector)) (batch : list string) (es : list vector) :
  Forall2 (slot_ok emb) e batch -> all_present e = Ret es -> es = map emb batch.
Proof.
  intros H; revert es; induction H as [|o t e' batch' Ho H IH]; intros es Hp; simpl in Hp.
  - injection Hp as <-; reflexivity.
  - destruct Ho as [-> | ->]; [discriminate|].
    destruct (all_present e') as [vs| |] eqn:E; try discriminate.
    injection Hp as <-. simpl. f_equal. apply IH; reflexivity.
Qed.

Lemma repeat_none_ok (batch : list string) : Forall2 (slot_ok emb) (repeat None (List.length batch)) batch.
Proof. induction batch; simpl; constructor; [left; reflexivity | assumption]. Qed.

Lemma do_attempts_from (env : Env) (texts : list string) (attempt n : nat) st body closed calls :
  do_attempts env texts attempt n = (Ret (st, body, closed), calls) ->
  exists a, http_do env texts a = Response st body.
Proof.
  revert attempt calls; induction n as [|n IH]; intros attempt calls H; simpl in H.
  - discriminate.
  - destruct (http_do env texts attempt) as [|st' body'] eqn:E; [discriminate|].
    destruct ((st' =? StatusTooManyRequests) && (attempt <? 2)%nat).
    + destruct (backoff_fires env attempt); [|discriminate].
      destruct (do_attempts env texts (S attempt) n) as [r c] eqn:Er.
      cbn in H. injection H as -> _. exact (IH _ _ Er).
    + injection H as -> -> _ _. exists attempt; exact E.
Qed.

Lemma embedBatch_ok (env : Env) (batch : list string) (es : list vector) calls :
  honest emb env -> embedBatch env batch = (Ret es, calls) -> es = map emb batch.
Proof.
  intros Hh Hb. unfold embedBatch in Hb.
  destruct (do_attempts env batch 0 maxRetries) as [r c] eqn:Ed.
  injection Hb as Hb _.
  destruct r as [[[st body] closed]| |]; try discriminate.
  destruct (read_body closed body) as [resp| |] eqn:Er; try discriminate.
  destruct (Error resp); [discriminate|].
  destruct (negb (st =? StatusOK)); [discriminate|].
  destruct (do_attempts_from env batch 0 maxRetries st body closed c Ed) as [a Ha].
  assert (body = Body (Some resp)) as ->.
  { destruct body as [| |[r|]]; simpl in Er; try discriminate;
      destruct closed; try discriminate.
    injection Er as ->. reflexivity. }
  unfold reassemble in Hb.
  destruct (fill (repeat None (List.length batch)) (Data resp)) as [e| |] eqn:Ef; try discriminate.
  apply (all_present_ok e batch es); [|exact Hb].
  apply (fill_ok batch (Data resp) _ e (repeat_none_ok batch)); [|exact Ef].
  intros item Hin Hr. exact (Hh batch a st resp Ha item Hin Hr).
Qed.

Lemma batch_split (texts : list string) (i : Z) :
  0 <= i < Z.of_nat (List.length texts) ->
  let len := Z.of_nat (List.length texts) in
  let end_ := if i + maxBatchSize >? len then len else i + maxBatchSize in
  slice texts i end_ ++ skipn (Z.to_nat (i + maxBatchSize)) texts = skipn (Z.to_nat i) texts.
Proof.
  intros Hi len end_. unfold slice, end_, len, maxBatchSize.
  rewrite Z2Nat.inj_add by lia.
  destruct (i + 100 >? Z.of_nat (List.length texts)) eqn:E.
  - rewrite Z.gtb_ltb in E; apply Z.ltb_lt in E.
    rewrite (skipn_all2 (n := (Z.to_nat i + Z.to_nat 100)%nat)) by lia. rewrite app_nil_r.
    apply firstn_all2. rewrite length_skipn. lia.
  - replace (i + 100 - i) with 100 by lia.
    rewrite Nat.add_comm, <- skipn_skipn. apply firstn_skipn.
Qed.

Lemma embed_loop_ok (env : Env) (texts : list string) (fuel : nat) (i : Z) (all es : list vector)
    calls :
  honest emb env -> 0 <= i -> Z.of_nat (List.length texts) - i < Z.of_nat fuel ->
  embed_loop env texts i fuel all = (Ret es, calls) ->
  es = all ++ map emb (skipn (Z.to_nat i) texts).
Proof.
  intros Hh; revert i all calls; induction fuel as [|fuel IH]; intros i all calls Hi Hf Hrun.
  - simpl in Hrun. injection Hrun as <- _.
    rewrite skipn_all2 by lia. rewrite app_nil_r. reflexivity.
  - rewrite Nat2Z.inj_succ in Hf. simpl in Hrun.
    destruct (i <? Z.of_nat (List.length texts)) eqn:Ei.
    + apply Z.ltb_lt in Ei.
      pose proof (batch_split texts i (conj Hi Ei)) as Hsplit. simpl in Hsplit.
      set (end_ := if i + maxBatchSize >? Z.of_nat (List.length texts)
                   then Z.of_nat (List.length texts) else i + maxBatchSize) in *.
      destruct (embedBatch env (slice texts i end_)) as [[es1| |] c1] eqn:Eb; try discriminate.
      pose proof (embedBatch_ok env _ es1 c1 Hh Eb) as ->.
      assert (Hrec : forall r c2, embed_loop env texts (i + maxBatchSize) fuel
                                    (all ++ map emb (slice texts i end_)) = (r, c2) ->
                     r = Ret es -> es = all ++ map emb (skipn (Z.to_nat i) texts)).
      { intros r c2 Er ->. rewrite (IH (i + maxBatchSize) _ _ ltac:(unfold maxBatchSize; lia)
                                        ltac:(unfold maxBatchSize; lia) Er).
        rewrite <- app_assoc, <- map_app, Hsplit. reflexivity. }
      destruct (end_ <? Z.of_nat (List.length texts)).
      * destruct (delay_fires env i); [|discriminate].
        destruct (embed_loop env texts (i + maxBatchSize) fuel _) as [r c2] eqn:Er.
        cbn in Hrun. injection Hrun as Hr _. exact (Hrec r c2 eq_refl Hr).
      * destruct (embed_loop env texts (i + maxBatchSize) fuel _) as [r c2] eqn:Er.
        cbn in Hrun. injection Hrun as Hr _. exact (Hrec r c2 eq_refl Hr).
    + apply Z.ltb_ge in Ei. injection Hrun as <- _.
      rewrite skipn_all2 by lia. rewrite app_nil_r. reflexivity.
Qed.

End Reassembly.

Lemma in_tag (emb : string -> vector) (k : Z) (batch : list string) (item : dataItem) :
  In item (tag emb k batch) ->
  exists j, (j < List.length batch)%nat /\ item = mkItem (emb (nth j batch ""%string)) (k + Z.of_nat j).
Proof.
  revert k; induction batch as [|t rest IH]; intros k Hin; simpl in Hin.
  - contradiction.
  - destruct Hin as [<- | Hin].
    + exists 0%nat. split; [simpl; lia|]. simpl. f_equal. lia.
    + destruct (IH (k + 1) Hin) as (j & Hj & ->).
      exists (S j). split; [simpl; lia|]. simpl. f_equal. lia.
Qed.

Lemma env_rev_honest : honest emb_len env_rev.
Proof.
  intros batch attempt st resp Hdo item Hin _.
  simpl in Hdo. injection Hdo as _ <-. simpl in Hin.
  apply in_rev in Hin. destruct (in_tag emb_len 0 batch item Hin) as (j & _ & ->).
  simpl. f_equal. f_equal. lia.
Qed.

End EmbeddingsProofs.

Module EmbeddingsClaims.
Import Embeddings EmbeddingsSpec EmbeddingsProofs.

(** C7: [Embed] of the empty sequence returns the empty sequence and sends
    no request; and whenever the provider tags each item with the position
    of the text it embeds (in any order), a successful [Embed] returns, at
    position i, the embedding of the i-th input text. *)
Theorem Embed_order_preserving (env : Env) (emb : string -> vector) :
  Embed env [] = (Ret [], []) /\
  (honest emb env -> forall texts es calls,
     Embed env texts = (Ret es, calls) -> es = map emb texts).
Proof.
  split; [reflexivity|].
  intros Hh texts es calls Hrun. destruct texts as [|t rest].
  - simpl in Hrun. injection Hrun as <- _. reflexivity.
  - unfold Embed in Hrun.
    rewrite (embed_loop_ok emb env (t :: rest) (S (List.length (t :: rest))) 0 [] es calls Hh
               ltac:(lia) ltac:(lia) Hrun).
    reflexivity.
Qed.

Lemma Embed_order_preserving_witness :
  Embed env_rev [] = (Ret [], []) /\
  honest emb_len env_rev /\
  fst (Embed env_rev texts150) = Ret (map emb_len texts150) /\
  (forall es calls, Embed env_rev texts150 = (Ret es, calls) -> es = map emb_len texts150).
Proof.
  destruct (Embed_order_preserving env_rev emb_len) as [H0 H1].
  split; [exact H0|]. split; [exact env_rev_honest|].
  split; [vm_compute; reflexivity|].
  intros es calls E. exact (H1 env_rev_honest texts150 es calls E).
Defined.

(** C9 (refuted): [embedBatch] only rejects tags [>= len(embeddings)]; a
    response item tagged -1 (with a vector of the right dimension) reaches
    [embeddings[item.Index] = ...] and the slice write panics. *)
Theorem embedBatch_negative_tag_panics :
  embedBatch env_negative_tag ["x"%string]
  = (Panic "runtime error: index out of range", [["x"%string]]).
Proof. vm_compute. reflexivity. Qed.

End EmbeddingsClaims.

Module StorageProofs.
Import Storage StorageSpec.

Lemma insert_chunks_ok (fault : step -> bool) (tx : DB) (id : Z) (n : nat) (cs : list Chunk)
    (tx' : DB) :
  insert_chunks fault tx id n cs = Ret tx' ->
  documents tx' = documents tx /\
  exists rows, chunks tx' = chunks tx ++ rows /\ map chunk_fields rows = map (input_fields id) cs.
Proof.
  revert tx n; induction cs as [|c rest IH]; intros tx n H; simpl in H.
  - injection H as <-. split; [reflexivity|]. exists []. rewrite app_nil_r. split; reflexivity.
  - destruct (fault (InsertChunk n)); [discriminate|].
    unfold sql_insert_chunk in H.
    destruct (foreign_keys tx && negb (existsb (fun d => ID d =? id) (documents tx))); [discriminate|].
    destruct (IH _ _ H) as (Hd & rows & Hc & Hm). simpl in Hd, Hc.
    split; [exact Hd|].
    exists (mkChunkRow (Z.max (seq_chunks tx) (max_id (map row_id (chunks tx))) + 1) id
              (ChunkIndex c) (Content c) (StartOffset c) (EndOffset c)
              (serializeEmbedding (Embedding c)) :: rows).
    split; [rewrite Hc, <- app_assoc; reflexivity|]. simpl. rewrite Hm. reflexivity.
Qed.

Lemma max_id_ge (ids : list Z) (x : Z) : In x ids -> x <= max_id ids.
Proof.
  induction ids as [|y ids IH]; simpl; [contradiction|].
  intros [<- | H]; [lia | specialize (IH H); lia].
Qed.

Lemma existsb_source_filtered (l : list Document) (source : string) :
  existsb (fun d => String.eqb (Source d) source)
          (filter (fun d => negb (String.eqb (Source d) source)) l) = false.
Proof.
  induction l as [|d l IH]; simpl; [reflexivity|].
  destruct (String.eqb (Source d) source) eqn:E; simpl; [exact IH|].
  rewrite E. exact IH.
Qed.

(** *** Ranking *)

Lemma insert_desc_perm (x : Row) (l : list Row) : Permutation (insert_desc x l) (x :: l).
Proof.
  induction l as [|y l IH]; simpl; [reflexivity|].
  destruct (Qle_bool (row_score x) (row_score y)); [|reflexivity].
  rewrite IH. apply perm_swap.
Qed.

Lemma order_desc_perm (l : list Row) : Permutation (order_desc l) l.
Proof.
  unfold order_desc.
  assert (H : forall acc, Permutation (fold_left (fun acc x => insert_desc x acc) l acc) (l ++ acc)).
  { induction l as [|x l IH]; intros acc; simpl; [reflexivity|].
    rewrite IH, insert_desc_perm. symmetry. apply Permutation_middle. }
  rewrite H, app_nil_r. reflexivity.
Qed.

Lemma insert_desc_hd (x y : Row) (l : list Row) :
  HdRel StorageSpec.desc y l -> StorageSpec.desc y x -> HdRel StorageSpec.desc y (insert_desc x l).
Proof.
  intros Hh Hyx. destruct l as [|z l]; simpl.
  - constructor; exact Hyx.
  - destruct (Qle_bool (row_score x) (row_score z)); constructor; [inversion Hh; assumption | exact Hyx].
Qed.

Lemma insert_desc_sorted (x : Row) (l : list Row) :
  Sorted StorageSpec.desc l -> Sorted StorageSpec.desc (insert_desc x l).
Proof.
  induction 1 as [|y l Hs IH Hh]; simpl.
  - constructor; constructor.
  - destruct (Qle_bool (row_score x) (row_score y)) eqn:E.
    + apply Qle_bool_iff in E. constructor; [exact IH|]. apply insert_desc_hd; assumption.
    + constructor; [constructor; assumption|]. constructor.
      unfold StorageSpec.desc. apply Qlt_le_weak, Qnot_le_lt. intros Hle.
      apply Qle_bool_iff in Hle. congruence.
Qed.

Lemma order_desc_sorted (l : list Row) : Sorted StorageSpec.desc (order_desc l).
Proof.
  unfold order_desc.
  assert (H : forall acc, Sorted StorageSpec.desc acc ->
              Sorted StorageSpec.desc (fold_left (fun acc x => insert_desc x acc) l acc)).
  { induction l as [|x l IH]; intros acc Ha; simpl; [exact Ha|].
    apply IH, insert_desc_sorted, Ha. }
  apply H. constructor.
Qed.

Lemma desc_trans : Relations_1.Transitive StorageSpec.desc.
Proof. intros a b c Hab Hbc. unfold StorageSpec.desc in *. eapply Qle_trans; eassumption. Qed.

Lemma in_firstn_l {A} (n : nat) (l : list A) (x : A) : In x (firstn n l) -> In x l.
Proof. intros H. rewrite <- (firstn_skipn n l). apply in_or_app. left; exact H. Qed.

Lemma strongly_sorted_firstn {A} (R : A -> A -> Prop) (n : nat) (l : list A) :
  StronglySorted R l -> StronglySorted R (firstn n l).
Proof.
  revert n; induction l as [|x l IH]; intros n H; destruct n; simpl; [constructor..|].
  apply StronglySorted_inv in H as [Hs Hf]. constructor; [apply IH; exact Hs|].
  rewrite Forall_forall in *. intros y Hy. apply Hf, (in_firstn_l n), Hy.
Qed.

Lemma strongly_sorted_filter {A} (R : A -> A -> Prop) (f : A -> bool) (l : list A) :
  StronglySorted R l -> StronglySorted R (filter f l).
Proof.
  induction l as [|x l IH]; intros H; simpl; [constructor|].
  apply StronglySorted_inv in H as [Hs Hf].
  destruct (f x); [constructor; [apply IH, Hs|] | apply IH, Hs].
  rewrite Forall_forall in *. intros y Hy. apply filter_In in Hy. apply Hf, Hy.
Qed.

Lemma score_to_result (r : Row) : rScore (to_result r) = row_score r.
Proof. destruct r as [[c doc] sc]; reflexivity. Qed.

Lemma source_to_result (r : Row) : rSource (to_result r) = Source (snd (fst r)).
Proof. destruct r as [[c doc] sc]; reflexivity. Qed.

Lemma sorted_map_results (l : list Row) :
  Sorted StorageSpec.desc l -> Sorted (fun a b => (rScore b <= rScore a)%Q) (map to_result l).
Proof.
  induction 1 as [|x l Hs IH Hh]; simpl; constructor; [exact IH|].
  destruct Hh as [|y l' Hy]; simpl; constructor.
  rewrite !score_to_result. exact Hy.
Qed.

(** Every row of the answer is a row of the selected window, and every row
    of the ranking is a joined row that passes the source filter. *)
Lemma search_rows_in_window (score : list Z -> list Z -> Q) (d : DB) (qb : list Z) (topK : Z)
    (minScore : Q) (f : string) (r : Row) :
  In r (search_rows score d qb topK minScore f) ->
  In r (sql_limit topK (ranked_rows score d qb f)) /\ Qle_bool minScore (row_score r) = true.
Proof. unfold search_rows. apply filter_In. Qed.

Lemma in_sql_limit {A} (k : Z) (l : list A) (x : A) : In x (sql_limit k l) -> In x l.
Proof. unfold sql_limit. destruct (k <? 0); [auto | apply in_firstn_l]. Qed.

Lemma in_ranked (score : list Z -> list Z -> Q) (d : DB) (qb : list Z) (f : string) (r : Row) :
  In r (ranked_rows score d qb f) <-> In r (where_source f (join_rows score d qb)).
Proof.
  unfold ranked_rows. split; apply Permutation_in;
    [apply order_desc_perm | symmetry; apply order_desc_perm].
Qed.

Lemma in_where_source (f : string) (rows : list Row) (r : Row) :
  In r (where_source f rows) -> In r rows /\ (f <> ""%string -> Source (snd (fst r)) = f).
Proof.
  unfold where_source. destruct (String.eqb f "") eqn:E.
  - apply String.eqb_eq in E. intros H; split; [exact H | intros Hf; contradiction].
  - intros H. apply filter_In in H as [H1 H2]. split; [exact H1|].
    intros _. apply String.eqb_eq, H2.
Qed.

Lemma in_join_rows (score : list Z -> list Z -> Q) (d : DB) (qb : list Z) (r : Row) :
  In r (join_rows score d qb) ->
  In (fst (fst r)) (chunks d) /\ In (snd (fst r)) (documents d) /\
  ID (snd (fst r)) = document_id (fst (fst r)).
Proof.
  unfold join_rows. intros H. apply in_flat_map in H as (c & Hc & H).
  apply in_map_iff in H as (doc & <- & Hdoc). apply filter_In in Hdoc as [Hdoc Hid].
  simpl. split; [exact Hc|]. split; [exact Hdoc|]. apply Z.eqb_eq, Hid.
Qed.

Lemma nodup_join_rows (score : list Z -> list Z -> Q) (d : DB) (qb : list Z) :
  NoDup (map row_id (chunks d)) -> NoDup (map ID (documents d)) -> NoDup (join_rows score d qb).
Proof.
  intros Hc Hd. unfold join_rows.
  assert (Hdocs : NoDup (documents d)) by (eapply NoDup_map_inv; exact Hd).
  induction (chunks d) as [|c cs IH]; simpl; [constructor|].
  simpl in Hc. inversion Hc as [|? ? Hnotin Hc']; subst.
  apply NoDup_app.
  - apply Injective_map_NoDup; [|apply NoDup_filter, Hdocs].
    intros x y Hxy. injection Hxy as Hxy. exact Hxy.
  - apply IH, Hc'.
  - intros a Ha Hb. apply in_map_iff in Ha as (doc & <- & _).
    apply in_flat_map in Hb as (c' & Hc'' & Hb). apply in_map_iff in Hb as (doc' & Heq & _).
    injection Heq as -> _ _. apply Hnotin, in_map, Hc''.
Qed.

Lemma nodup_app_disjoint {A} (l1 l2 : list A) (x : A) : NoDup (l1 ++ l2) -> In x l2 -> ~ In x l1.
Proof.
  intros H Hx Hx1. apply in_split in Hx as (u & v & ->).
  apply (NoDup_remove_2 (l1 ++ u) v x); [rewrite <- app_assoc; exact H|].
  apply in_or_app; left; apply in_or_app; left; exact Hx1.
Qed.

Lemma insert_chunks_ids (fault : step -> bool) (tx : DB) (id : Z) (n : nat) (cs : list Chunk)
    (tx' : DB) :
  insert_chunks fault tx id n cs = Ret tx' ->
  seq_documents tx' = seq_documents tx /\
  Forall (fun r => In r (chunks tx) \/ document_id r = id) (chunks tx').
Proof.
  revert tx n; induction cs as [|c rest IH]; intros tx n H; simpl in H.
  - injection H as <-. split; [reflexivity|]. apply Forall_forall; auto.
  - destruct (fault (InsertChunk n)); [discriminate|].
    unfold sql_insert_chunk in H.
    destruct (foreign_keys tx && negb (existsb (fun d => ID d =? id) (documents tx))); [discriminate|].
    destruct (IH _ _ H) as (Hs & Hf). simpl in Hs, Hf.
    split; [exact Hs|].
    apply Forall_forall. intros r Hr. rewrite Forall_forall in Hf.
    destruct (Hf r Hr) as [Hin | Hid]; [|right; exact Hid].
    apply in_app_or in Hin as [Hin | [<- | []]]; [left; exact Hin | right; reflexivity].
Qed.

Lemma sql_delete_sub (d : DB) (source : string) :
  let tx := fst (sql_delete_documents d source) in
  seq_documents tx = seq_documents d /\
  (forall doc, In doc (documents tx) -> In doc (documents d)) /\
  (forall c, In c (chunks tx) -> In c (chunks d)).
Proof.
  simpl. split; [reflexivity|]. split.
  - intros doc H. apply filter_In in H as [H _]. exact H.
  - intros c H. destruct (foreign_keys d); [apply filter_In in H as [H _]|]; exact H.
Qed.

Lemma DeleteDocument_keeps_orphan (exec_fails rows_fails : bool) (d : DB) (source : string) (z : Z) :
  ids_bounded d -> orphan_id d z ->
  ids_bounded (snd (DeleteDocument exec_fails rows_fails d source)) /\
  orphan_id (snd (DeleteDocument exec_fails rows_fails d source)) z.
Proof.
  intros [Hd Hc] [Hz Ho].
  assert (Hdel : ids_bounded (fst (sql_delete_documents d source)) /\
  orphan_id (fst (sql_delete_documents d source)) z).
  { destruct (sql_delete_sub d source) as (Hs & Hsd & Hsc).
    rewrite Forall_forall in Hd, Hc. repeat split.
    - apply Forall_forall. intros doc H. rewrite Hs. apply Hd, Hsd, H.
    - apply Forall_forall. intros c H. rewrite Hs. apply Hc, Hsc, H.
    - rewrite Hs. exact Hz.
    - intros doc H. apply Ho, Hsd, H. }
  unfold DeleteDocument. destruct exec_fails; [split; [split|split]; assumption|].
  destruct (sql_delete_documents d source) as [d' k].
  destruct rows_fails; [exact Hdel|]. destruct (k =? 0); exact Hdel.
Qed.

Lemma IndexDocument_keeps_orphan (fault : step -> bool) (now : Z) (d : DB)
    (source sourceType title : string) (cs : list Chunk) (z : Z) :
  ids_bounded d -> orphan_id d z ->
  ids_bounded (snd (IndexDocument fault now d source sourceType title cs)) /\
  orphan_id (snd (IndexDocument fault now d source sourceType title cs)) z.
Proof.
  intros Hb Hz.
  assert (Hd0 : ids_bounded d /\ orphan_id d z) by (split; assumption).
  destruct (sql_delete_sub d source) as (Hs & Hsd & Hsc).
  destruct Hb as [Hd Hc]. destruct Hz as [Hz Ho]. rewrite Forall_forall in Hd, Hc.
  unfold IndexDocument.
  destruct (fault BeginTx); [exact Hd0|].
  destruct (fault DeleteExisting); [exact Hd0|].
  destruct (sql_delete_documents d source) as [tx k] eqn:Edel. simpl in Hs, Hsd, Hsc.
  destruct (fault InsertDocument); [exact Hd0|].
  unfold sql_insert_document.
  destruct (existsb _ (documents tx)); [exact Hd0|].
  set (id := Z.max (seq_documents tx) (max_id (map ID (documents tx))) + 1).
  destruct (fault LastInsertId); [exact Hd0|].
  destruct (fault PrepareInsert); [exact Hd0|].
  destruct (insert_chunks fault _ id 0 cs) as [tx'| |] eqn:Ei; try exact Hd0.
  destruct (fault CommitTx); [exact Hd0|].
  destruct (insert_chunks_ok _ _ _ _ _ _ Ei) as (Hd' & _). simpl in Hd'.
  destruct (insert_chunks_ids _ _ _ _ _ _ Ei) as (Hs' & Hc'). simpl in Hs', Hc'.
  simpl. unfold ids_bounded, orphan_id. rewrite Hs'.
  assert (Hgt : seq_documents d < id) by (unfold id; lia).
  repeat split.
  - apply Forall_forall. intros doc H. rewrite Hd' in H.
    apply in_app_or in H as [H | [<- | []]]; [|simpl; lia].
    specialize (Hd doc (Hsd doc H)). lia.
  - apply Forall_forall. intros c H. rewrite Forall_forall in Hc'.
    destruct (Hc' c H) as [H1 | H1]; [|lia].
    specialize (Hc c (Hsc c H1)). lia.
  - lia.
  - intros doc H. rewrite Hd' in H.
    apply in_app_or in H as [H | [<- | []]]; [apply Ho, Hsd, H | simpl; lia].
Qed.

End StorageProofs.

Module StorageClaims.
Import Storage StorageSpec StorageProofs.

(** C1: [IndexDocument] is an atomic replace. When it fails, the database
    afterwards is the database before the call. When it succeeds, the
    documents are the previous ones without [source], followed by the new
    document (under an id no remaining document has), and the chunk rows are
    those left by the delete step followed by one row per input chunk, in
    order, owned by the new document. *)
Theorem IndexDocument_atomic_replace (fault : step -> bool) (now : Z) (d : DB)
    (source sourceType title : string) (cs : list Chunk) :
  match IndexDocument fault now d source sourceType title cs with
  | (Err _, d') => d' = d
  | (Ok, d') =>
      exists id,
        ~ In id (map ID (filter (fun doc => negb (String.eqb (Source doc) source)) (documents d))) /\
        documents d' = filter (fun doc => negb (String.eqb (Source doc) source)) (documents d)
                       ++ [mkDocument id source sourceType now (content_size cs)
                             (Z.of_nat (List.length cs)) title] /\
        exists rows, chunks d' = chunks (fst (sql_delete_documents d source)) ++ rows /\
                     map chunk_fields rows = map (input_fields id) cs
  end.
Proof.
  unfold IndexDocument.
  destruct (fault BeginTx); [reflexivity|].
  destruct (fault DeleteExisting); [reflexivity|].
  destruct (sql_delete_documents d source) as [tx n] eqn:Edel.
  destruct (fault InsertDocument); [reflexivity|].
  unfold sql_insert_document.
  assert (Hdocs : documents tx = filter (fun doc => negb (String.eqb (Source doc) source)) (documents d))
    by (unfold sql_delete_documents in Edel; injection Edel as <- _; reflexivity).
  rewrite Hdocs, existsb_source_filtered.
  set (kept := filter (fun doc => negb (String.eqb (Source doc) source)) (documents d)) in *.
  set (id := Z.max (seq_documents tx) (max_id (map ID kept)) + 1).
  destruct (fault LastInsertId); [reflexivity|].
  destruct (fault PrepareInsert); [reflexivity|].
  destruct (insert_chunks fault _ id 0 cs) as [tx'| |] eqn:Ei; try reflexivity.
  destruct (fault CommitTx); [reflexivity|].
  destruct (insert_chunks_ok _ _ _ _ _ _ Ei) as (Hd & rows & Hc & Hm). simpl in Hd, Hc.
  exists id. split.
  - intros Hin. apply max_id_ge in Hin. unfold id in Hin. lia.
  - split; [exact Hd|]. exists rows. split; [|exact Hm].
    rewrite Hc. reflexivity.
Qed.

(** C3 (amended): for [topK >= 0], [Search] returns the first [topK] rows
    of the ranking (descending by score, restricted to [sourceFilter] when
    it is not empty) with the rows of score < [minScore] then dropped: at
    most [topK] results, sorted descending, all >= [minScore], all from the
    filtered source; a row ranked at position [topK] or later is never
    returned, whatever its score (chunk and document ids being keys). For a
    negative [topK], [LIMIT] sets no bound: the whole ranking is filtered by
    [minScore], the results again sorted descending and all from the
    filtered source. [Service.Search] only ever calls [Storage.Search] with
    a [topK] > 0: the request's, or 5 when that is <= 0. *)
Theorem Search_topK_then_minScore :
  (forall (score : list Z -> list Z -> Q) (query_fails : bool) (d : DB)
     (q : list Z) (topK : Z) (minScore : Q) (sourceFilter : string) (rs : list SearchResult),
   NoDup (map row_id (chunks d)) -> NoDup (map ID (documents d)) ->
   Search score query_fails d q topK minScore sourceFilter = Ret rs ->
   let ranked := ranked_rows score d (serializeEmbedding q) sourceFilter in
   (0 <= topK ->
    rs = map to_result (filter (fun r => Qle_bool minScore (row_score r))
                          (firstn (Z.to_nat topK) ranked)) /\
    Sorted StorageSpec.desc ranked /\
    (List.length rs <= Z.to_nat topK)%nat /\
    Sorted (fun a b => (rScore b <= rScore a)%Q) rs /\
    Forall (fun r => (minScore <= rScore r)%Q) rs /\
    (sourceFilter <> ""%string -> Forall (fun r => rSource r = sourceFilter) rs) /\
    (forall j, (Z.to_nat topK <= j < List.length ranked)%nat ->
       ~ In (nth j ranked row0) (search_rows score d (serializeEmbedding q) topK minScore sourceFilter))) /\
   (topK < 0 ->
    rs = map to_result (filter (fun r => Qle_bool minScore (row_score r)) ranked) /\
    Sorted StorageSpec.desc ranked /\
    Sorted (fun a b => (rScore b <= rScore a)%Q) rs /\
    Forall (fun r => (minScore <= rScore r)%Q) rs /\
    (sourceFilter <> ""%string -> Forall (fun r => rSource r = sourceFilter) rs))) /\
  (forall (env : Embeddings.Env) (score : list Z -> list Z -> Q) (query_fails : bool) (d : DB)
     (req : Service.SearchRequest) (resp : Service.SearchResponse),
   Service.Search env score query_fails d req = Ret resp ->
   exists q topK, 0 < topK /\ topK = (if Service.TopK req <=? 0 then 5 else Service.TopK req) /\
     Search score query_fails d q topK (Service.MinScore req) (Service.SourceFilter req)
       = Ret (Service.Results resp)).
Proof.
  split.
  2:{ intros env score query_fails d req resp H. unfold Service.Search in H.
      destruct (fst (Embeddings.Embed env [Service.Query req])) as [es| |]; try discriminate.
      destruct es as [|qe _]; [discriminate|].
      destruct (Search score query_fails d qe _ (Service.MinScore req) (Service.SourceFilter req))
        as [rs| |] eqn:Es; try discriminate.
      injection H as <-. eexists qe, _. split; [|split; [reflexivity | exact Es]].
      destruct (Z.leb_spec (Service.TopK req) 0); lia. }
  intros score query_fails d q topK minScore sourceFilter rs Hc Hd Hs ranked. unfold Search in Hs.
  destruct (negb _); [discriminate|]. destruct query_fails; [discriminate|].
  injection Hs as <-.
  assert (Hsorted : Sorted StorageSpec.desc ranked) by apply order_desc_sorted.
  assert (Hmin : Forall (fun r => (minScore <= rScore r)%Q)
                   (map to_result (search_rows score d (serializeEmbedding q) topK minScore sourceFilter))).
  { apply Forall_forall. intros x Hx. apply in_map_iff in Hx as (r & <- & Hr).
    apply search_rows_in_window in Hr as [_ Hr]. rewrite score_to_result. apply Qle_bool_iff, Hr. }
  assert (Hsrc : sourceFilter <> ""%string -> Forall (fun r => rSource r = sourceFilter)
                   (map to_result (search_rows score d (serializeEmbedding q) topK minScore sourceFilter))).
  { intros Hf. apply Forall_forall. intros x Hx. apply in_map_iff in Hx as (r & <- & Hr).
    apply search_rows_in_window in Hr as [Hr _]. apply in_sql_limit, in_ranked, in_where_source in Hr.
    rewrite source_to_result. apply (proj2 Hr Hf). }
  split.
  2:{ intros Hk.
      assert (Hrows : search_rows score d (serializeEmbedding q) topK minScore sourceFilter
                      = filter (fun r => Qle_bool minScore (row_score r)) ranked).
      { unfold search_rows, sql_limit. replace (topK <? 0) with true by (symmetry; apply Z.ltb_lt; lia).
        reflexivity. }
      split; [rewrite Hrows; reflexivity|]. split; [exact Hsorted|].
      split; [|split; [exact Hmin | exact Hsrc]].
      apply sorted_map_results. apply StronglySorted_Sorted. rewrite Hrows.
      apply strongly_sorted_filter, Sorted_StronglySorted; [exact desc_trans | exact Hsorted]. }
  intros Hk.
  assert (Hrows : search_rows score d (serializeEmbedding q) topK minScore sourceFilter
                  = filter (fun r => Qle_bool minScore (row_score r)) (firstn (Z.to_nat topK) ranked)).
  { unfold search_rows, sql_limit. replace (topK <? 0) with false by (symmetry; apply Z.ltb_ge; lia).
    reflexivity. }
  split; [rewrite Hrows; reflexivity|].
  split; [exact Hsorted|].
  split.
  { rewrite length_map. rewrite Hrows. etransitivity; [apply filter_length_le|].
    rewrite length_firstn. lia. }
  split.
  { apply sorted_map_results. apply StronglySorted_Sorted. rewrite Hrows.
    apply strongly_sorted_filter, strongly_sorted_firstn, Sorted_StronglySorted;
      [exact desc_trans | exact Hsorted]. }
  split; [exact Hmin|]. split; [exact Hsrc|].
  intros j Hj Hin. rewrite Hrows in Hin. apply filter_In in Hin as [Hin _].
  assert (Hnd : NoDup ranked).
  { apply (Permutation_NoDup (l := where_source sourceFilter (join_rows score d (serializeEmbedding q)))).
    - symmetry; apply order_desc_perm.
    - unfold where_source. destruct (String.eqb sourceFilter ""); [|apply NoDup_filter];
        apply nodup_join_rows; assumption. }
  rewrite <- (firstn_skipn (Z.to_nat topK) ranked) in Hnd.
  apply (nodup_app_disjoint _ _ (nth j ranked row0) Hnd); [|exact Hin].
  rewrite <- (firstn_skipn (Z.to_nat topK) ranked) at 1.
  rewrite app_nth2 by (rewrite length_firstn; lia).
  rewrite length_firstn. apply nth_In. rewrite length_skipn. lia.
Qed.

Lemma Search_topK_then_minScore_witness :
  Search score_first_byte false db_ab query1536 1 0 "" =
    Ret [mkSearchResult [105; 106] "doc" 1 (80 # 100)] /\
  let ranked := ranked_rows score_first_byte db_ab (serializeEmbedding query1536) "" in
  ([mkSearchResult [105; 106] "doc" 1 (80 # 100)] : list SearchResult)
    = map to_result (filter (fun r => Qle_bool 0 (row_score r)) (firstn (Z.to_nat 1) ranked)) /\
  Sorted StorageSpec.desc ranked /\
  Nat.le (List.length [mkSearchResult [105; 106] "doc" 1 (80 # 100)]) (Z.to_nat 1) /\
  ([mkSearchResult [105; 106] "doc" 1 (80 # 100); mkSearchResult [104; 105] "doc" 0 (30 # 100)]
     : list SearchResult)
    = map to_result (filter (fun r => Qle_bool 0 (row_score r)) ranked) /\
  exists q topK, 0 < topK /\
    Search score_first_byte false db_two q topK (1 # 2) "" =
      Ret [mkSearchResult (Content chunk_b) "b" 1 (80 # 100)].
Proof.
  assert (E : Search score_first_byte false db_ab query1536 1 0 "" =
              Ret [mkSearchResult [105; 106] "doc" 1 (80 # 100)]) by (vm_compute; reflexivity).
  assert (En : Search score_first_byte false db_ab query1536 (-1) 0 "" =
               Ret [mkSearchResult [105; 106] "doc" 1 (80 # 100);
                    mkSearchResult [104; 105] "doc" 0 (30 # 100)]) by (vm_compute; reflexivity).
  assert (Es : Service.Search EmbeddingsSpec.env_rev score_first_byte false db_two
                 (Service.mkSearchRequest "q" 0 (1 # 2) "")
               = Ret (Service.mkSearchResponse [mkSearchResult (Content chunk_b) "b" 1 (80 # 100)] 1))
    by (vm_compute; reflexivity).
  assert (Hc : NoDup (map row_id (chunks db_ab)))
    by (vm_compute; repeat constructor; simpl; intuition discriminate).
  assert (Hd : NoDup (map ID (documents db_ab)))
    by (vm_compute; repeat constructor; simpl; intuition discriminate).
  destruct Search_topK_then_minScore as [HS HV].
  split; [exact E|].
  destruct (proj1 (HS score_first_byte false db_ab query1536 1%Z 0%Q ""%string _ Hc Hd E) ltac:(lia))
    as (H1 & H2 & H3 & _).
  split; [exact H1|]. split; [exact H2|]. split; [exact H3|].
  split; [exact (proj1 (proj2 (HS score_first_byte false db_ab query1536 (-1)%Z 0%Q ""%string _ Hc Hd En) ltac:(lia)))|].
  destruct (HV _ _ _ _ _ _ Es) as (q & k & Hk & _ & Hq).
  exists q, k. split; [exact Hk | exact Hq].
Defined.

(** C3 (refuted as stated): with [topK = -1], SQLite's [LIMIT -1] puts no
    bound on the rows, and [Search] returns both chunks of [db_ab]: more
    than [topK] results. *)
Lemma Search_negative_topK_unbounded :
  Search score_first_byte false db_ab query1536 (-1) 0 "" =
    Ret [mkSearchResult [105; 106] "doc" 1 (80 # 100); mkSearchResult [104; 105] "doc" 0 (30 # 100)]
  /\ Z.of_nat 2 > -1.
Proof. split; [vm_compute; reflexivity | lia]. Qed.

(** C2 (refuted): the [ON DELETE CASCADE] clause of the schema only acts
    when SQLite enforces foreign keys, and [NewDatabase] never turns them on.
    After indexing "doc" with two chunks, [DeleteDocument("doc")] succeeds
    and removes the document, but both chunk rows of document 1 remain;
    reindexing "doc" also keeps them next to the new document's row. *)
Theorem DeleteDocument_leaves_chunk_rows :
  NewDatabase true true = Ret db0 /\
  fst (DeleteDocument false false db_ab "doc") = Ok /\
  documents db_ab_deleted = [] /\
  map document_id (chunks db_ab_deleted) = [1; 1] /\
  fst (IndexDocument no_fault 1 db_ab "doc" "content" "" [chunk_b]) = Ok /\
  map ID (documents db_ab_reindexed) = [2] /\
  map document_id (chunks db_ab_reindexed) = [1; 1; 2].
Proof. repeat split; vm_compute; reflexivity. Qed.

(** C6 (refuted): [contentSize += len(chunk.Content)] counts UTF-8 bytes:
    a chunk made of the two code points U+4E16 U+754C is stored with
    [content_size = 6]. *)
Theorem IndexDocument_content_size_counts_bytes :
  map ContentSize (documents (snd (IndexDocument no_fault 0 db0 "doc" "content" "" [chunk_cjk])))
    = [6] /\
  rune_count (Content chunk_cjk) = 2.
Proof. split; vm_compute; reflexivity. Qed.

(** C10: every result of [Search] is the projection of a joined row: a
    chunk row of the database together with an existing document whose id
    is the chunk's [document_id]. Moreover, ids are never reused: once a
    handed-out id [z] has no document (e.g. the [document_id] of a chunk
    row left behind by a delete), it still has none after any
    [IndexDocument] or [DeleteDocument], so such a chunk row never joins
    again and is never returned. *)
Theorem Search_results_have_documents :
  (forall (score : list Z -> list Z -> Q) (query_fails : bool) (d : DB)
          (q : list Z) (topK : Z) (minScore : Q) (sourceFilter : string) (rs : list SearchResult),
     Search score query_fails d q topK minScore sourceFilter = Ret rs ->
     exists rows, rs = map to_result rows /\
       Forall (fun r => In (fst (fst r)) (chunks d) /\ In (snd (fst r)) (documents d) /\
                        ID (snd (fst r)) = document_id (fst (fst r))) rows) /\
  (forall (d : DB) (z : Z), ids_bounded d -> orphan_id d z ->
     (forall fault now source sourceType title cs,
        let d' := snd (IndexDocument fault now d source sourceType title cs) in
        ids_bounded d' /\ orphan_id d' z) /\
     (forall exec_fails rows_fails source,
        let d' := snd (DeleteDocument exec_fails rows_fails d source) in
        ids_bounded d' /\ orphan_id d' z)).
Proof.
  split.
  - intros score query_fails d q topK minScore sourceFilter rs Hs. unfold Search in Hs.
    destruct (negb _); [discriminate|]. destruct query_fails; [discriminate|].
    injection Hs as <-. eexists; split; [reflexivity|].
    apply Forall_forall. intros r Hr.
    apply search_rows_in_window in Hr as [Hr _].
    apply in_sql_limit, in_ranked, in_where_source in Hr as [Hr _].
    eapply in_join_rows; exact Hr.
  - intros d z Hb Hz. split.
    + intros. apply IndexDocument_keeps_orphan; assumption.
    + intros. apply DeleteDocument_keeps_orphan; assumption.
Qed.

Lemma Search_results_have_documents_witness :
  chunks db_ab_deleted <> [] /\
  Search score_first_byte false db_ab_deleted query1536 5 0 "" = Ret [] /\
  (exists rows, ([] : list SearchResult) = map to_result rows /\
    Forall (fun r => In (fst (fst r)) (chunks db_ab_deleted) /\ In (snd (fst r)) (documents db_ab_deleted) /\
                     ID (snd (fst r)) = document_id (fst (fst r))) rows) /\
  orphan_id (snd (IndexDocument no_fault 1 db_ab_deleted "doc" "content" "" [chunk_b])) 1.
Proof.
  assert (E : Search score_first_byte false db_ab_deleted query1536 5 0 "" = Ret [])
    by (vm_compute; reflexivity).
  destruct Search_results_have_documents as [H1 H2].
  split; [vm_compute; discriminate|]. split; [exact E|]. split.
  - exact (H1 score_first_byte false db_ab_deleted query1536 5 0%Q ""%string [] E).
  - assert (Hb : ids_bounded db_ab_deleted)
      by (vm_compute; split; repeat constructor; discriminate).
    assert (Hz : orphan_id db_ab_deleted 1)
      by (vm_compute; split; [discriminate | intros doc []]).
    exact (proj2 (proj1 (H2 db_ab_deleted 1 Hb Hz) no_fault 1 "doc"%string "content"%string ""%string [chunk_b])).
Defined.

End StorageClaims.

Module DeleteClaims.
Import Storage.

Lemma filter_length_zero (l : list Document) (source : string) :
  List.length (filter (fun d => String.eqb (Source d) source) l) = 0%nat
  <-> ~ In source (map Source l).
Proof.
  induction l as [|x l IH]; simpl; [tauto|].
  destruct (String.eqb (Source x) source) eqn:E.
  - apply String.eqb_eq in E. simpl. split; [discriminate | intros H; exfalso; apply H; left; exact E].
  - apply String.eqb_neq in E. rewrite IH. split; [intros H [H' | H']; [exact (E H') | exact (H H')] | tauto].
Qed.

Lemma not_in_filtered (l : list Document) (source : string) :
  ~ In source (map Source (filter (fun d => negb (String.eqb (Source d) source)) l)).
Proof.
  intros H. apply in_map_iff in H as (x & Hx & Hin). apply filter_In in Hin as [_ Hf].
  rewrite Hx, String.eqb_refl in Hf. discriminate.
Qed.

(** C8: [Service.Delete] never returns a Go error. When [DeleteDocument]
    fails the response has [deleted = false] and a message; it fails with
    "document not found" exactly when its statement ran and no document has
    that source. When it succeeds the response has [deleted = true] and no
    document with that source is left, the others being kept. *)
Theorem Delete_structured_response (exec_fails rows_fails : bool) (d : DB) (source : string) :
  let '((resp, err), d') := SearchSvc.Delete exec_fails rows_fails d source in
  err = None /\ SearchSvc.Source resp = source /\
  (fst (DeleteDocument exec_fails rows_fails d source) = Err ("document not found: " ++ source)
     <-> exec_fails = false /\ rows_fails = false /\ ~ In source (map Source (documents d))) /\
  match fst (DeleteDocument exec_fails rows_fails d source) with
  | Err m => SearchSvc.Deleted resp = false /\
             SearchSvc.Message resp = ("Failed to delete: " ++ m)%string
  | Ok => SearchSvc.Deleted resp = true /\ ~ In source (map Source (documents d')) /\
          documents d' = filter (fun doc => negb (String.eqb (Source doc) source)) (documents d)
  end.
Proof.
  unfold SearchSvc.Delete, DeleteDocument.
  destruct exec_fails.
  - simpl. repeat split; try reflexivity; try discriminate; intros [H _]; discriminate.
  - unfold sql_delete_documents. cbv zeta.
    set (n := Z.of_nat (List.length (filter (fun d0 => String.eqb (Source d0) source) (documents d)))).
    pose proof (filter_length_zero (documents d) source) as Hz.
    destruct rows_fails.
    + simpl. repeat split; try reflexivity; try discriminate; intros (_ & H & _); discriminate.
    + destruct (n =? 0) eqn:En; simpl.
      * apply Z.eqb_eq in En. unfold n in En.
        repeat split; try reflexivity.
        apply Hz. lia.
      * apply Z.eqb_neq in En. unfold n in En.
        repeat split; try reflexivity.
        -- discriminate.
        -- intros (_ & _ & H). apply Hz in H. rewrite H in En. contradiction.
        -- apply not_in_filtered.
Qed.

End DeleteClaims.

(* ------------------------------------------------------------------ *)
(** ** Chunker: further properties *)

Module ChunkerExtra.
Import Chunker ChunkerExtraSpec ChunkerProofs.

Lemma scan_back_space (runes : list rune) (i : Z) (n : nat) :
  scan_back runes i n <> -1 -> isSpace (rune_at runes (scan_back runes i n)) = true.
Proof.
  revert i; induction n as [|n IH]; intros i H; simpl in *.
  - contradiction.
  - destruct (isSpace (rune_at runes i)) eqn:E; [exact E | apply IH, H].
Qed.

Lemma skip_ws_spec (runes : list rune) (p : Z) (n : nat) :
  (skip_ws runes p n = p \/ isSpace (rune_at runes (skip_ws runes p n - 1)) = true) /\
  (skip_ws runes p n = p + Z.of_nat n \/ isSpace (rune_at runes (skip_ws runes p n)) = false).
Proof.
  revert p; induction n as [|n IH]; intros p; simpl.
  - split; left; lia.
  - destruct (isSpace (rune_at runes p)) eqn:E.
    + destruct (IH (p + 1)) as [[H1 | H1] [H2 | H2]]; split;
        try (right; exact H1); try (right; exact H2); try (left; lia).
      right. rewrite H1. replace (p + 1 - 1) with p by lia. exact E.
      right. rewrite H1. replace (p + 1 - 1) with p by lia. exact E.
    + split; [left; reflexivity | right; exact E].
Qed.

Lemma findWordBoundary_spec (c : Chunker) (runes : list rune) (startPos endPos : Z) :
  0 < chunkSize c -> 0 <= startPos < endPos ->
  let r := findWordBoundary c runes startPos endPos in
  startPos < r <= endPos /\ endPos - Z.min 100 (chunkSize c) < r /\
  (r < endPos -> isSpace (rune_at runes (r - 1)) = true /\ isSpace (rune_at runes r) = false).
Proof.
  intros Hc Hse r.
  pose proof (findWordBoundary_range c runes startPos endPos Hc Hse) as Hr. fold r in Hr.
  split; [exact Hr|]. unfold r, findWordBoundary.
  set (m := if 100 >? chunkSize c then chunkSize c else 100).
  assert (Hm : m = Z.min 100 (chunkSize c))
    by (unfold m; destruct (100 >? chunkSize c) eqn:E; zbool E; lia).
  set (s := if endPos - m <? startPos then startPos else endPos - m).
  assert (Hs : endPos - m <= s < endPos /\ startPos <= s)
    by (unfold s; destruct (endPos - m <? startPos) eqn:E; zbool E; lia).
  destruct (scan_back_range runes (endPos - 1) (Z.to_nat (endPos - s))) as [H | H].
  - rewrite H; simpl. split; [lia | intros; lia].
  - rewrite Z2Nat.id in H by lia.
    set (w := scan_back runes (endPos - 1) (Z.to_nat (endPos - s))) in *.
    assert (Hw : isSpace (rune_at runes w) = true) by (apply scan_back_space; change (w <> -1); lia).
    replace (w >=? 0) with true by (symmetry; apply Z.geb_le; lia).
    pose proof (skip_ws_range runes (w + 1) (Z.to_nat (endPos - (w + 1)))) as Hrg.
    destruct (skip_ws_spec runes (w + 1) (Z.to_nat (endPos - (w + 1)))) as [H1 H2].
    rewrite Z2Nat.id in Hrg, H2 by lia.
    set (k := skip_ws runes (w + 1) (Z.to_nat (endPos - (w + 1)))) in *.
    split; [lia|]. intros Hlt. split.
    + destruct H1 as [H1 | H1]; [rewrite H1; replace (w + 1 - 1) with w by lia; exact Hw | exact H1].
    + destruct H2 as [H2 | H2]; [lia | exact H2].
Qed.

(** A chunk appended at [position] and ending at [e]. *)
Lemma cover_snoc (c : Chunker) (runes : list rune) (position e idx : Z) (acc : list Chunk) :
  cover_inv c runes position acc -> position < e <= position + chunkSize c ->
  Forall (chunk_slice c runes) (acc ++ [mkChunk (slice runes position e) idx position e]) /\
  no_gap (acc ++ [mkChunk (slice runes position e) idx position e]).
Proof.
  intros (Hf & Hg & Hp & Hl) He. split.
  - apply Forall_app; split; [exact Hf|]. constructor; [|constructor].
    unfold chunk_slice; simpl. repeat split; lia.
  - intros i Hi. rewrite length_app in Hi; simpl in Hi.
    destruct (Nat.lt_ge_cases (S i) (length acc)) as [Hlt | Hge].
    + rewrite !app_nth1 by lia. apply Hg; exact Hlt.
    + assert (Hi' : S i = length acc) by lia.
      rewrite app_nth2 by lia. rewrite app_nth1 by lia.
      replace (S i - length acc)%nat with 0%nat by lia. simpl.
      destruct Hl as [-> | Hl]; [simpl in Hi'; lia|].
      replace i with (length acc - 1)%nat by lia. exact Hl.
Qed.

Lemma cover_step (c : Chunker) (runes : list rune) (totalLen position idx : Z) (acc : list Chunk) :
  0 < chunkSize c -> 0 <= overlap c -> position < totalLen ->
  cover_inv c runes position acc ->
  match chunk_step c runes totalLen position idx acc with
  | Done cs => Forall (chunk_slice c runes) cs /\ no_gap cs
  | Next p i cs => cover_inv c runes p cs
  end.
Proof.
  intros Hc Hov Hpt Hinv.
  assert (Hp0 : 0 <= position) by apply Hinv.
  unfold chunk_step.
  set (endPos := if position + chunkSize c >? totalLen then totalLen else position + chunkSize c).
  assert (He : position < endPos <= totalLen /\ endPos <= position + chunkSize c)
    by (unfold endPos; destruct (position + chunkSize c >? totalLen) eqn:E; zbool E; lia).
  set (actualEnd := if endPos <? totalLen then findWordBoundary c runes position endPos else endPos).
  assert (Ha : position < actualEnd <= endPos).
  { unfold actualEnd. destruct (endPos <? totalLen).
    - apply findWordBoundary_range; lia.
    - lia. }
  destruct (cover_snoc c runes position actualEnd idx acc Hinv) as [Hf Hg]; [lia|].
  destruct (actualEnd >=? totalLen); [split; assumption|].
  split; [exact Hf|]. split; [exact Hg|].
  split; [destruct (actualEnd - overlap c <? 0) eqn:E; zbool E; lia|].
  right. rewrite nth_snoc_last. simpl.
  destruct (actualEnd - overlap c <? 0) eqn:E; zbool E; lia.
Qed.

Lemma cover_loop (fuel : nat) (c : Chunker) (runes : list rune) (totalLen position idx : Z)
    (acc cs : list Chunk) :
  0 < chunkSize c -> 0 <= overlap c ->
  cover_inv c runes position acc ->
  chunk_loop fuel c runes totalLen position idx acc = Some cs ->
  Forall (chunk_slice c runes) cs /\ no_gap cs.
Proof.
  revert position idx acc.
  induction fuel as [|fuel IH]; intros position idx acc Hc Hov Hinv Hrun; simpl in Hrun.
  - discriminate.
  - destruct (position <? totalLen) eqn:Ep.
    + apply Z.ltb_lt in Ep.
      pose proof (cover_step c runes totalLen position idx acc Hc Hov Ep Hinv) as Hs.
      destruct (chunk_step c runes totalLen position idx acc) as [cs' | p i cs'].
      * injection Hrun as <-. exact Hs.
      * exact (IH p i cs' Hc Hov Hs Hrun).
    + injection Hrun as <-. destruct Hinv as (Hf & Hg & _). split; assumption.
Qed.

Lemma progress_loop (c : Chunker) (runes : list rune) (totalLen : Z) :
  0 < chunkSize c -> 0 <= overlap c -> overlap c + Z.min 100 (chunkSize c) <= chunkSize c ->
  forall fuel position idx acc, 0 <= position -> (Z.to_nat (totalLen - position) < fuel)%nat ->
  chunk_loop fuel c runes totalLen position idx acc <> None.
Proof.
  intros Hc Hov Hprog fuel. induction fuel as [|fuel IH]; intros position idx acc Hp Hf.
  - lia.
  - simpl. destruct (position <? totalLen) eqn:Ep; [|discriminate].
    apply Z.ltb_lt in Ep. unfold chunk_step; cbv zeta.
    destruct (position + chunkSize c >? totalLen) eqn:E1; zbool E1.
    + rewrite Z.ltb_irrefl, Z.geb_leb, Z.leb_refl. discriminate.
    + destruct (position + chunkSize c <? totalLen) eqn:E2; zbool E2.
      * destruct (findWordBoundary_spec c runes position (position + chunkSize c) Hc) as (Hr & Hm & _);
          [lia|].
        set (r := findWordBoundary c runes position (position + chunkSize c)) in *.
        destruct (r >=? totalLen); [discriminate|].
        replace (r - overlap c <? 0) with false by (symmetry; apply Z.ltb_ge; lia).
        apply IH; [lia|].
        assert (Z.to_nat (totalLen - (r - overlap c)) < Z.to_nat (totalLen - position))%nat
          by (apply Z2Nat.inj_lt; lia).
        lia.
      * rewrite Z.geb_leb. replace (totalLen <=? position + chunkSize c) with true
          by (symmetry; apply Z.leb_le; lia). discriminate.
Qed.

(** [NewChunker] always yields [0 < chunkSize] and [0 <= overlap < chunkSize],
    and leaves a configuration that already satisfies this unchanged. *)
Theorem NewChunker_normalizes (cs ov : Z) :
  0 < chunkSize (NewChunker cs ov) /\
  0 <= overlap (NewChunker cs ov) < chunkSize (NewChunker cs ov) /\
  (0 < cs -> 0 <= ov < cs -> NewChunker cs ov = mkChunker cs ov).
Proof.
  unfold NewChunker; cbn.
  destruct (cs <=? 0) eqn:E1; zbool E1;
  destruct (ov <? 0) eqn:E2; zbool E2;
  match goal with |- context [if ?b then _ else _] => destruct b eqn:E3; zbool E3 end;
  (split; [lia|]); (split; [try (split; [apply Z.div_pos; lia | apply Z.div_lt; lia]); lia|]);
  intros; try lia; reflexivity.
Qed.

Lemma NewChunker_normalizes_witness :
  NewChunker 1000 100 = mkChunker 1000 100 /\ overlap (NewChunker 100 150) < chunkSize (NewChunker 100 150).
Proof.
  split.
  - exact (proj2 (proj2 (NewChunker_normalizes 1000 100)) ltac:(lia) ltac:(lia)).
  - exact (proj2 (proj1 (proj2 (NewChunker_normalizes 100 150)))).
Defined.

(** [findWordBoundary], for [startPos < endPos], cuts in
    [(startPos, endPos]], less than [min(100, chunkSize)] code points
    before [endPos]; a cut before [endPos] falls right after a whitespace
    code point and right before a non-whitespace one, so no word is cut
    unless it has no whitespace within the scanned window. *)
Theorem findWordBoundary_cut (cs ov : Z) (runes : list rune) (startPos endPos : Z) :
  0 <= startPos < endPos ->
  let c := NewChunker cs ov in
  let r := findWordBoundary c runes startPos endPos in
  startPos < r <= endPos /\ endPos - Z.min 100 (chunkSize c) < r /\
  (r < endPos -> isSpace (rune_at runes (r - 1)) = true /\ isSpace (rune_at runes r) = false).
Proof.
  intros Hse c r. apply findWordBoundary_spec; [apply NewChunker_bounds | exact Hse].
Qed.

Lemma findWordBoundary_cut_witness :
  findWordBoundary (NewChunker 5 0) [104; 105; 32; 116; 104; 101; 114; 101] 0 7 = 3 /\
  0 <= 0 < 7 /\
  (let c := NewChunker 5 0 in
   let r := findWordBoundary c [104; 105; 32; 116; 104; 101; 114; 101] 0 7 in
   0 < r <= 7 /\ 7 - Z.min 100 (chunkSize c) < r /\
   (r < 7 -> isSpace (rune_at [104; 105; 32; 116; 104; 101; 114; 101] (r - 1)) = true /\
             isSpace (rune_at [104; 105; 32; 116; 104; 101; 114; 101] r) = false)).
Proof.
  split; [vm_compute; reflexivity|]. split; [lia|].
  exact (findWordBoundary_cut 5 0 [104; 105; 32; 116; 104; 101; 114; 101] 0 7 ltac:(lia)).
Defined.

(** Every chunk [ChunkText] returns is exactly the text between its
    offsets, starts at a non-negative offset and is at most [chunkSize]
    code points long, and each chunk starts no later than the previous one
    ends, so no code point of the text is skipped. *)
Theorem ChunkText_chunks_are_slices (fuel : nat) (cs ov : Z) (runes : list rune)
    (chunks : list Chunk) :
  ChunkText fuel (NewChunker cs ov) runes = Some chunks ->
  Forall (chunk_slice (NewChunker cs ov) runes) chunks /\ no_gap chunks.
Proof.
  intros Hrun. destruct (NewChunker_bounds cs ov) as [Hc Hov].
  set (c := NewChunker cs ov) in *.
  unfold ChunkText in Hrun. destruct runes as [|r rs].
  - injection Hrun as <-. split; [constructor | intros i Hi; simpl in Hi; lia].
  - destruct (Z.of_nat (length (r :: rs)) <=? chunkSize c) eqn:E.
    + injection Hrun as <-. apply Z.leb_le in E. change (length (r :: rs)) with (S (length rs)) in E.
      split.
      * constructor; [|constructor]. unfold chunk_slice, slice; cbn [Content StartOffset EndOffset].
        rewrite Zpos_P_of_succ_nat, Z.sub_0_r, <- Nat2Z.inj_succ, Nat2Z.id. split; [|lia].
        change (S (length rs)) with (length (r :: rs)). rewrite firstn_all. reflexivity.
      * intros i Hi; simpl in Hi; lia.
    + apply (cover_loop fuel c (r :: rs) (Z.of_nat (length (r :: rs))) 0 0 [] chunks Hc Hov); [|exact Hrun].
      split; [constructor|]. split; [intros i Hi; simpl in Hi; lia|]. split; [lia | left; reflexivity].
Qed.

Lemma ChunkText_chunks_are_slices_witness :
  ChunkText 100 (NewChunker 50 10) (repeat_str_words 30) = Some word_chunks_x /\
  Forall (chunk_slice (NewChunker 50 10) (repeat_str_words 30)) word_chunks_x /\ no_gap word_chunks_x.
Proof.
  assert (E : ChunkText 100 (NewChunker 50 10) (repeat_str_words 30) = Some word_chunks_x)
    by (vm_compute; reflexivity).
  split; [exact E|]. exact (ChunkText_chunks_are_slices 100 50 10 _ _ E).
Defined.

(** [ChunkText] terminates, within [length + 1] iterations, for every text
    whenever [overlap + min(100, chunkSize) <= chunkSize] (e.g. the
    default 1000/100, or any [overlap = 0] with [chunkSize <= 100]): the
    cut then always lies beyond [position + overlap], so [position]
    strictly increases. *)
Theorem ChunkText_terminates (cs ov : Z) (runes : list rune) :
  overlap (NewChunker cs ov) + Z.min 100 (chunkSize (NewChunker cs ov)) <= chunkSize (NewChunker cs ov) ->
  ChunkText (S (length runes)) (NewChunker cs ov) runes <> None.
Proof.
  intros Hprog. destruct (NewChunker_bounds cs ov) as [Hc Hov].
  set (c := NewChunker cs ov) in *.
  unfold ChunkText. destruct runes as [|r rs]; [discriminate|].
  destruct (Z.of_nat (length (r :: rs)) <=? chunkSize c); [discriminate|].
  apply progress_loop; try assumption; [lia|].
  rewrite Z.sub_0_r, Nat2Z.id. lia.
Qed.

Lemma ChunkText_terminates_witness :
  overlap (NewChunker 1000 100) + Z.min 100 (chunkSize (NewChunker 1000 100)) <= chunkSize (NewChunker 1000 100) /\
  ChunkText (S (length (repeat 97%Z 2500))) (NewChunker 1000 100) (repeat 97%Z 2500) <> None.
Proof.
  assert (H : overlap (NewChunker 1000 100) + Z.min 100 (chunkSize (NewChunker 1000 100))
              <= chunkSize (NewChunker 1000 100)) by (vm_compute; discriminate).
  split; [exact H|]. exact (ChunkText_terminates 1000 100 _ H).
Defined.

End ChunkerExtra.

Module StorageExtra.
Import Storage StorageSpec StorageProofs StorageExtraSpec.

(** *** Blob encoding *)

Lemma lor_shiftl_add (x y k : Z) :
  0 <= k -> 0 <= x < 2 ^ k -> Z.lor x (Z.shiftl y k) = x + y * 2 ^ k.
Proof.
  intros Hk Hx. rewrite Z.shiftl_mul_pow2 by exact Hk.
  assert (H0 : Z.land x (y * 2 ^ k) = 0).
  { apply Z.bits_inj'. intros m Hm. rewrite Z.land_spec, Z.bits_0.
    destruct (Z.lt_ge_cases m k) as [Hmk | Hmk].
    - rewrite Z.mul_pow2_bits_low by exact Hmk. apply andb_false_r.
    - rewrite <- (Z.mod_small x (2 ^ k)) by exact Hx.
      rewrite Z.mod_pow2_bits_high by lia. reflexivity. }
  rewrite <- Z.lxor_lor by exact H0. symmetry. apply Z.add_nocarry_lxor, H0.
Qed.

Lemma le_uint32_sum (b0 b1 b2 b3 : Z) :
  0 <= b0 < 256 -> 0 <= b1 < 256 -> 0 <= b2 < 256 ->
  le_uint32 b0 b1 b2 b3 = b0 + b1 * 256 + b2 * 65536 + b3 * 16777216.
Proof.
  intros H0 H1 H2. unfold le_uint32.
  rewrite (lor_shiftl_add b0 b1 8) by (cbn; lia).
  rewrite (lor_shiftl_add _ b2 16) by (cbn; lia).
  rewrite (lor_shiftl_add _ b3 24) by (cbn; lia).
  cbn. lia.
Qed.

Lemma byte_low (w k : Z) : 0 <= k -> Z.land (Z.shiftr w k) 255 = (w / 2 ^ k) mod 256.
Proof.
  intros Hk. rewrite Z.shiftr_div_pow2 by exact Hk.
  change 255 with (Z.ones 8). rewrite Z.land_ones by lia. reflexivity.
Qed.

Lemma le_word_roundtrip (w : Z) :
  0 <= w < 2 ^ 32 ->
  le_uint32 (Z.land w 255) (Z.land (Z.shiftr w 8) 255) (Z.land (Z.shiftr w 16) 255)
    (Z.land (Z.shiftr w 24) 255) = w.
Proof.
  intros Hw.
  change 255 with (Z.ones 8) at 1. rewrite Z.land_ones by lia.
  change (Z.ones 8) with 255. rewrite !byte_low by lia.
  assert (Hb : forall a, 0 <= a mod 256 < 256) by (intros; apply Z.mod_pos_bound; lia).
  rewrite le_uint32_sum by apply Hb. change (2 ^ 32) with 4294967296 in Hw.
  change (2 ^ 8) with 256. change (2 ^ 16) with 65536. change (2 ^ 24) with 16777216.
  change (2 ^ Z.of_nat 8) with 256.
  Z.div_mod_to_equations. lia.
Qed.

Lemma decode_serialize (n : nat) (e : list Z) :
  Forall (fun w => 0 <= w < 2 ^ 32) e -> (length e <= n)%nat ->
  decode_le32 n (serializeEmbedding e) = e.
Proof.
  revert n; induction e as [|w e IH]; intros n He Hn.
  - destruct n; reflexivity.
  - inversion He as [|? ? Hw He']; subst.
    destruct n as [|n]; [simpl in Hn; lia|].
    unfold serializeEmbedding. cbn [flat_map].
    unfold le_bytes32. cbn [app decode_le32].
    fold (serializeEmbedding e).
    f_equal; [apply le_word_roundtrip, Hw | apply IH; [exact He' | simpl in Hn; lia]].
Qed.

Lemma length_serialize (e : list Z) : length (serializeEmbedding e) = (4 * length e)%nat.
Proof. induction e as [|w e IH]; simpl; [reflexivity|]. rewrite IH. lia. Qed.

Lemma le_bytes_roundtrip (b0 b1 b2 b3 : Z) :
  0 <= b0 < 256 -> 0 <= b1 < 256 -> 0 <= b2 < 256 -> 0 <= b3 < 256 ->
  le_bytes32 (le_uint32 b0 b1 b2 b3) = [b0; b1; b2; b3].
Proof.
  intros H0 H1 H2 H3. rewrite le_uint32_sum by assumption. unfold le_bytes32.
  change 255 with (Z.ones 8) at 1. rewrite Z.land_ones by lia. change (Z.ones 8) with 255.
  rewrite !byte_low by lia.
  change (2 ^ 8) with 256. change (2 ^ 16) with 65536. change (2 ^ 24) with 16777216.
  change (2 ^ Z.of_nat 8) with 256.
  f_equal; [|f_equal; [|f_equal; [|f_equal]]]; Z.div_mod_to_equations; lia.
Qed.

Lemma serialize_decode (n : nat) (bs : list Z) :
  Forall (fun b => 0 <= b < 256) bs -> length bs = (4 * n)%nat ->
  serializeEmbedding (decode_le32 n bs) = bs.
Proof.
  revert bs; induction n as [|n IH]; intros bs Hb Hl.
  - destruct bs; [reflexivity | simpl in Hl; lia].
  - destruct bs as [|b0 [|b1 [|b2 [|b3 bs]]]]; simpl in Hl; try lia.
    inversion Hb as [|? ? B0 Hb1]; inversion Hb1 as [|? ? B1 Hb2];
      inversion Hb2 as [|? ? B2 Hb3]; inversion Hb3 as [|? ? B3 Hb4]; subst.
    cbn [decode_le32]. unfold serializeEmbedding. cbn [flat_map].
    rewrite le_bytes_roundtrip by assumption. cbn [app].
    fold (serializeEmbedding (decode_le32 n bs)). rewrite IH by (assumption || lia).
    reflexivity.
Qed.

Lemma quiet_nan_keep (w : Z) :
  Z.land (Z.shiftr w 23) 255 <> 255 \/ Z.land w 8388607 = 0 \/ Z.testbit w 22 = true ->
  quiet_nan w = w.
Proof.
  unfold quiet_nan. intros [H | [H | H]].
  - apply Z.eqb_neq in H. rewrite H. reflexivity.
  - rewrite H. rewrite andb_false_r. reflexivity.
  - destruct (_ && _); [|reflexivity].
    apply Z.bits_inj'. intros n Hn. rewrite Z.lor_spec.
    change 4194304 with (2 ^ 22). rewrite Z.pow2_bits_eqb by lia.
    destruct (Z.eqb_spec 22 n); [subst n; rewrite H; reflexivity | apply orb_false_r].
Qed.

(** *** Keys *)

Lemma nodup_map_filter {A B} (keep : A -> bool) (key : A -> B) (l : list A) :
  NoDup (map key l) -> NoDup (map key (filter keep l)).
Proof.
  induction l as [|x l IH]; cbn; intros H; [constructor|].
  apply NoDup_cons_iff in H as [Hx Hl].
  destruct (keep x); cbn; [|apply IH, Hl].
  constructor; [|apply IH, Hl].
  rewrite in_map_iff. intros (y & Hy & Hin). apply filter_In in Hin as [Hin _].
  apply Hx. rewrite <- Hy. apply in_map, Hin.
Qed.

Lemma nodup_map_snoc {A B} (f : A -> B) (l : list A) (x : A) :
  NoDup (map f l) -> ~ In (f x) (map f l) -> NoDup (map f (l ++ [x])).
Proof.
  intros H Hx. rewrite map_app. simpl.
  apply (Permutation_NoDup (Permutation_cons_append (map f l) (f x))). constructor; assumption.
Qed.

Lemma fresh_id (s : Z) (ids : list Z) : ~ In (Z.max s (max_id ids) + 1) ids.
Proof. intros H. apply max_id_ge in H. lia. Qed.

Lemma existsb_source_false (l : list Document) (source : string) :
  existsb (fun d => String.eqb (Source d) source) l = false -> ~ In source (map Source l).
Proof.
  intros H Hin. apply in_map_iff in Hin as (doc & Hs & Hin).
  assert (E : existsb (fun d => String.eqb (Source d) source) l = true).
  { apply existsb_exists. exists doc. split; [exact Hin | apply String.eqb_eq, Hs]. }
  congruence.
Qed.

Lemma sql_delete_keys (d : DB) (source : string) :
  keys_ok d -> keys_ok (fst (sql_delete_documents d source)).
Proof.
  intros (Hs & Hi & Hr). unfold keys_ok; simpl.
  split; [apply nodup_map_filter, Hs|]. split; [apply nodup_map_filter, Hi|].
  destruct (foreign_keys d); [apply nodup_map_filter|]; exact Hr.
Qed.

Lemma sql_insert_document_keys (d d' : DB) (source sourceType : string) (cs cc : Z)
    (title : string) (now id : Z) :
  keys_ok d -> sql_insert_document d source sourceType cs cc title now = Some (d', id) ->
  keys_ok d'.
Proof.
  intros (Hs & Hi & Hr) H. unfold sql_insert_document in H.
  destruct (existsb _ (documents d)) eqn:E; [discriminate|].
  injection H as <- _. unfold keys_ok; simpl. repeat split.
  - apply nodup_map_snoc; [exact Hs|]. apply existsb_source_false, E.
  - apply nodup_map_snoc; [exact Hi|]. apply fresh_id.
  - exact Hr.
Qed.

Lemma insert_chunks_keys (fault : step -> bool) (tx tx' : DB) (id : Z) (n : nat) (cs : list Chunk) :
  keys_ok tx -> insert_chunks fault tx id n cs = Ret tx' -> keys_ok tx'.
Proof.
  revert tx n; induction cs as [|c rest IH]; intros tx n Hk H; simpl in H.
  - injection H as <-. exact Hk.
  - destruct (fault (InsertChunk n)); [discriminate|].
    unfold sql_insert_chunk in H.
    destruct (foreign_keys tx && negb _); [discriminate|].
    refine (IH _ _ _ H).
    destruct Hk as (Hs & Hi & Hr). unfold keys_ok; simpl. repeat split; try assumption.
    apply nodup_map_snoc; [exact Hr|]. apply fresh_id.
Qed.

Lemma IndexDocument_keys (fault : step -> bool) (now : Z) (d : DB)
    (source sourceType title : string) (cs : list Chunk) :
  keys_ok d -> keys_ok (snd (IndexDocument fault now d source sourceType title cs)).
Proof.
  intros Hk. pose proof (sql_delete_keys d source Hk) as Hdel.
  unfold IndexDocument.
  destruct (fault BeginTx); [exact Hk|]. destruct (fault DeleteExisting); [exact Hk|].
  destruct (sql_delete_documents d source) as [tx k]. simpl in Hdel.
  destruct (fault InsertDocument); [exact Hk|].
  destruct (sql_insert_document tx source sourceType _ _ title now) as [[tx1 id]|] eqn:Ei;
    [|exact Hk].
  destruct (fault LastInsertId); [exact Hk|]. destruct (fault PrepareInsert); [exact Hk|].
  destruct (insert_chunks fault tx1 id 0 cs) as [tx2| |] eqn:Ec; try exact Hk.
  destruct (fault CommitTx); [exact Hk|].
  exact (insert_chunks_keys _ _ _ _ _ _ (sql_insert_document_keys _ _ _ _ _ _ _ _ _ Hdel Ei) Ec).
Qed.

Lemma DeleteDocument_keys (exec_fails rows_fails : bool) (d : DB) (source : string) :
  keys_ok d -> keys_ok (snd (DeleteDocument exec_fails rows_fails d source)).
Proof.
  intros Hk. pose proof (sql_delete_keys d source Hk) as Hdel.
  unfold DeleteDocument. destruct exec_fails; [exact Hk|].
  destruct (sql_delete_documents d source) as [d' k]. simpl in Hdel.
  destruct rows_fails; [exact Hdel|]. destruct (k =? 0); exact Hdel.
Qed.

(** *** Outcome of [IndexDocument] *)

Lemma IndexDocument_cases (fault : step -> bool) (now : Z) (d : DB)
    (source sourceType title : string) (cs : list Chunk) :
  let r := IndexDocument fault now d source sourceType title cs in
  let kept := filter (fun x => negb (String.eqb (Source x) source)) (documents d) in
  let id := Z.max (seq_documents d) (max_id (map ID kept)) + 1 in
  (fst r <> Ok /\ snd r = d) \/
  (fst r = Ok /\ seq_documents (snd r) = id /\
   documents (snd r) =
     kept ++ [mkDocument id source sourceType now (content_size cs) (Z.of_nat (length cs)) title] /\
   exists rows, chunks (snd r) = chunks (fst (sql_delete_documents d source)) ++ rows /\
     map chunk_fields rows = map (input_fields id) cs).
Proof.
  intros r kept id. subst r. unfold IndexDocument.
  destruct (fault BeginTx); [left; split; [discriminate | reflexivity]|].
  destruct (fault DeleteExisting); [left; split; [discriminate | reflexivity]|].
  destruct (fault InsertDocument).
  { destruct (sql_delete_documents d source); left; split; [discriminate | reflexivity]. }
  cbn [sql_delete_documents fst]. unfold sql_insert_document. cbn [documents seq_documents].
  rewrite existsb_source_filtered. fold kept. fold id.
  destruct (fault LastInsertId); [left; split; [discriminate | reflexivity]|].
  destruct (fault PrepareInsert); [left; split; [discriminate | reflexivity]|].
  destruct (insert_chunks fault _ id 0 cs) as [tx| |] eqn:Ec;
    try (left; split; [discriminate | reflexivity]).
  destruct (fault CommitTx); [left; split; [discriminate | reflexivity]|].
  right. simpl. split; [reflexivity|].
  destruct (insert_chunks_ok _ _ _ _ _ _ Ec) as (Hd & rows & Hc & Hm).
  destruct (insert_chunks_ids _ _ _ _ _ _ Ec) as (Hs & _).
  simpl in Hd, Hc, Hs. split; [exact Hs|]. split; [exact Hd|].
  exists rows. split; [exact Hc | exact Hm].
Qed.

Lemma in_rows_content (id : Z) (rows : list ChunkRow) (cs : list Chunk) (r : ChunkRow) :
  map chunk_fields rows = map (input_fields id) cs -> In r rows ->
  document_id r = id /\ In (content r) (map Content cs).
Proof.
  intros Hm Hr. apply (in_map chunk_fields) in Hr. rewrite Hm in Hr.
  apply in_map_iff in Hr as (c & Hc & Hin). unfold input_fields, chunk_fields in Hc.
  injection Hc as E1 _ E3 _ _ _. split; [symmetry; exact E1|].
  rewrite <- E3. apply in_map, Hin.
Qed.

Lemma exists_filtered_other (l : list Document) (source s : string) :
  s <> source ->
  existsb (fun doc => String.eqb (Source doc) s)
    (filter (fun x => negb (String.eqb (Source x) source)) l) =
  existsb (fun doc => String.eqb (Source doc) s) l.
Proof.
  intros Hne. induction l as [|x l IH]; simpl; [reflexivity|].
  destruct (String.eqb (Source x) source) eqn:E; simpl; rewrite IH; [|reflexivity].
  apply String.eqb_eq in E. rewrite E.
  replace (String.eqb source s) with false; [reflexivity|].
  symmetry. apply String.eqb_neq. intros H; apply Hne; symmetry; exact H.
Qed.

(** *** Orders of [ListDocuments] *)

Lemma insert_indexed_desc_perm (x : Document) (l : list Document) :
  Permutation (insert_indexed_desc x l) (x :: l).
Proof.
  induction l as [|y l IH]; simpl; [reflexivity|].
  destruct (IndexedAt x <=? IndexedAt y); [|reflexivity].
  rewrite IH. apply perm_swap.
Qed.

Lemma insert_indexed_desc_sorted (x : Document) (l : list Document) :
  Sorted newer l -> Sorted newer (insert_indexed_desc x l).
Proof.
  induction 1 as [|y l Hs IH Hh]; simpl.
  - constructor; constructor.
  - destruct (IndexedAt x <=? IndexedAt y) eqn:E.
    + apply Z.leb_le in E. constructor; [exact IH|].
      destruct l as [|z l]; simpl.
      * constructor. unfold newer; lia.
      * inversion Hh as [|? ? Hyz]; subst. destruct (IndexedAt x <=? IndexedAt z) eqn:E2.
        -- constructor; exact Hyz.
        -- constructor. unfold newer; lia.
    + apply Z.leb_gt in E. constructor; [constructor; assumption|].
      constructor. unfold newer; lia.
Qed.

Lemma order_indexed_desc_spec (l : list Document) :
  Permutation (order_indexed_desc l) l /\ Sorted newer (order_indexed_desc l).
Proof.
  unfold order_indexed_desc.
  assert (H : forall acc, Sorted newer acc ->
     Permutation (fold_left (fun acc x => insert_indexed_desc x acc) l acc) (l ++ acc) /\
     Sorted newer (fold_left (fun acc x => insert_indexed_desc x acc) l acc)).
  { induction l as [|x l IH]; intros acc Hacc; simpl; [split; [reflexivity | exact Hacc]|].
    destruct (IH (insert_indexed_desc x acc) (insert_indexed_desc_sorted x acc Hacc)) as [Hp Hs].
    split; [|exact Hs]. rewrite Hp, insert_indexed_desc_perm. symmetry. apply Permutation_middle. }
  destruct (H [] (Sorted_nil _)) as [Hp Hs]. rewrite app_nil_r in Hp. split; assumption.
Qed.

(** *** Extra properties *)

(** [serializeEmbedding] of 1536 32-bit words is a blob of 6144 bytes,
    and [deserializeEmbedding] of it gives back every word through
    [quiet_nan]: a signaling NaN comes back with its quiet bit set, and
    every word that is not a NaN, an infinity or a quiet NaN comes back
    unchanged. *)
Theorem deserializeEmbedding_serialize (e : list Z) :
  length e = 1536%nat -> Forall (fun w => 0 <= w < 2 ^ 32) e ->
  length (serializeEmbedding e) = (4 * 1536)%nat /\
  deserializeEmbedding (serializeEmbedding e) = Ret (map quiet_nan e) /\
  (Forall (fun w => Z.land (Z.shiftr w 23) 255 <> 255 \/ Z.land w 8388607 = 0 \/
                    Z.testbit w 22 = true) e ->
   deserializeEmbedding (serializeEmbedding e) = Ret e).
Proof.
  intros Hl He.
  assert (Hd : deserializeEmbedding (serializeEmbedding e) = Ret (map quiet_nan e)).
  { unfold deserializeEmbedding. cbv zeta.
    change (Z.to_nat embeddingDimension) with 1536%nat.
    rewrite length_serialize, Hl, Nat.ltb_irrefl.
    rewrite firstn_all2 by (rewrite length_serialize, Hl; apply Nat.le_refl).
    rewrite decode_serialize; [reflexivity | exact He | rewrite Hl; reflexivity]. }
  rewrite length_serialize, Hl. split; [reflexivity|]. split; [exact Hd|].
  intros Hq. rewrite Hd. rewrite map_ext_Forall with (g := fun w => w); [rewrite map_id; reflexivity|].
  eapply Forall_impl; [|exact Hq]. intros w Hw. apply quiet_nan_keep, Hw.
Qed.

Lemma deserializeEmbedding_serialize_witness :
  deserializeEmbedding (serializeEmbedding (2139095041 :: repeat 0 1535)) =
    Ret (2143289345 :: repeat 0 1535) /\
  deserializeEmbedding (serializeEmbedding query1536) = Ret query1536.
Proof.
  assert (Hz : Forall (fun w => 0 <= w < 2 ^ 32) (repeat 0 1535)).
  { apply Forall_forall. intros x Hx. apply repeat_spec in Hx. subst x. lia. }
  split.
  - assert (Hf : Forall (fun w => 0 <= w < 2 ^ 32) (2139095041 :: repeat 0 1535))
      by (constructor; [lia | exact Hz]).
    rewrite (proj1 (proj2 (deserializeEmbedding_serialize (2139095041 :: repeat 0 1535) eq_refl Hf))).
    vm_compute. reflexivity.
  - assert (Hf : Forall (fun w => 0 <= w < 2 ^ 32) query1536)
      by (change query1536 with (0 :: repeat 0 1535); constructor; [lia | exact Hz]).
    apply (proj2 (proj2 (deserializeEmbedding_serialize query1536 eq_refl Hf))).
    apply Forall_forall. intros x Hx. apply repeat_spec in Hx. subst x. left. discriminate.
Defined.

(** [deserializeEmbedding] fails on a blob shorter than 6144 bytes, with
    [EOF] when it is empty; on a longer blob of bytes it returns
    [quiet_nan] of 1536 words whose serialization is the blob's first 6144
    bytes. *)
Theorem deserializeEmbedding_blob (data : list Z) :
  ((length data < 4 * 1536)%nat ->
     deserializeEmbedding data = Fail (match data with [] => "EOF" | _ => "unexpected EOF" end)) /\
  ((4 * 1536 <= length data)%nat -> Forall (fun b => 0 <= b < 256) data ->
     exists raw, deserializeEmbedding data = Ret (map quiet_nan raw) /\ length raw = 1536%nat /\
                 serializeEmbedding raw = firstn (4 * 1536) data).
Proof.
  split.
  - intros Hl. unfold deserializeEmbedding.
    change (4 * Z.to_nat embeddingDimension)%nat with (4 * 1536)%nat.
    replace (Nat.ltb (length data) _) with true by (symmetry; apply Nat.ltb_lt; exact Hl).
    destruct data; reflexivity.
  - intros Hl Hb. unfold deserializeEmbedding.
    change (4 * Z.to_nat embeddingDimension)%nat with (4 * 1536)%nat.
    replace (Nat.ltb (length data) _) with false by (symmetry; apply Nat.ltb_ge; exact Hl).
    eexists. split; [reflexivity|].
    assert (Hf : length (firstn (4 * 1536) data) = (4 * 1536)%nat) by (rewrite length_firstn; lia).
    assert (Hfb : Forall (fun b => 0 <= b < 256) (firstn (4 * 1536) data)).
    { apply Forall_forall. intros x Hx. rewrite Forall_forall in Hb. apply Hb, (in_firstn_l _ _ _ Hx). }
    pose proof (serialize_decode 1536 _ Hfb Hf) as Hs.
    change (Z.to_nat embeddingDimension) with 1536%nat.
    split; [|exact Hs].
    apply (f_equal (@length Z)) in Hs. rewrite length_serialize, Hf in Hs. lia.
Qed.

Lemma deserializeEmbedding_blob_witness :
  deserializeEmbedding (repeat 1 100) = Fail "unexpected EOF" /\
  exists raw, deserializeEmbedding (repeat 7 (4 * 1536 + 6)) = Ret (map quiet_nan raw) /\
              length raw = 1536%nat /\ serializeEmbedding raw = repeat 7 (4 * 1536).
Proof.
  split; [exact (proj1 (deserializeEmbedding_blob (repeat 1 100)) ltac:(simpl; lia))|].
  assert (Hb : Forall (fun b => 0 <= b < 256) (repeat 7 (4 * 1536 + 6))).
  { apply Forall_forall. intros x Hx. apply repeat_spec in Hx. subst x. lia. }
  destruct (proj2 (deserializeEmbedding_blob (repeat 7 (4 * 1536 + 6))) ltac:(rewrite repeat_length; lia) Hb)
    as (raw & H1 & H2 & H3).
  exists raw. split; [exact H1|]. split; [exact H2|]. rewrite H3. vm_compute. reflexivity.
Defined.

(** A database opened by [NewDatabase] is empty, and every [IndexDocument]
    and [DeleteDocument] call, whatever fails, keeps document sources,
    document ids and chunk row ids free of duplicates. *)
Theorem store_keys_unique :
  (forall vec_ok migrate_ok d, NewDatabase vec_ok migrate_ok = Ret d ->
     documents d = [] /\ chunks d = [] /\ keys_ok d) /\
  (forall d fault now source sourceType title cs,
     keys_ok d -> keys_ok (snd (IndexDocument fault now d source sourceType title cs))) /\
  (forall d exec_fails rows_fails source,
     keys_ok d -> keys_ok (snd (DeleteDocument exec_fails rows_fails d source))).
Proof.
  split; [|split].
  - intros v m d H. unfold NewDatabase in H.
    destruct (negb v); [discriminate|]. destruct (negb m); [discriminate|].
    injection H as <-. split; [reflexivity|]. split; [reflexivity|].
    repeat split; constructor.
  - intros. apply IndexDocument_keys; assumption.
  - intros. apply DeleteDocument_keys; assumption.
Qed.

Lemma store_keys_unique_witness :
  documents db0 = [] /\ keys_ok db_two /\ keys_ok (snd (DeleteDocument false false db_two "a")).
Proof.
  destruct store_keys_unique as (H0 & H1 & H2).
  destruct (H0 true true db0 eq_refl) as (Hd & _ & Hk).
  assert (Hk2 : keys_ok db_two) by (unfold db_two; apply H1, H1, Hk).
  split; [exact Hd|]. split; [exact Hk2 | apply H2, Hk2].
Defined.

(** After a successful [IndexDocument] the source exists; after a
    [DeleteDocument] whose statement ran it does not; and neither call
    changes whether any other source exists. *)
Theorem DocumentExists_after_write (d : DB) (source s : string) :
  (forall fault now sourceType title cs,
     fst (IndexDocument fault now d source sourceType title cs) = Ok ->
     DocumentExists (snd (IndexDocument fault now d source sourceType title cs)) source = true) /\
  (forall rows_fails,
     DocumentExists (snd (DeleteDocument false rows_fails d source)) source = false) /\
  (s <> source ->
     (forall fault now sourceType title cs,
        DocumentExists (snd (IndexDocument fault now d source sourceType title cs)) s =
        DocumentExists d s) /\
     (forall exec_fails rows_fails,
        DocumentExists (snd (DeleteDocument exec_fails rows_fails d source)) s =
        DocumentExists d s)).
Proof.
  split; [|split; [|intros Hne; split]].
  - intros fault now sourceType title cs Hok.
    destruct (IndexDocument_cases fault now d source sourceType title cs)
      as [[Hf _] | (_ & _ & Hd & _)]; [contradiction|].
    unfold DocumentExists. rewrite Hd, existsb_app. simpl. rewrite String.eqb_refl.
    apply orb_true_r.
  - intros rows_fails. unfold DeleteDocument.
    assert (H : DocumentExists (fst (sql_delete_documents d source)) source = false)
      by apply existsb_source_filtered.
    destruct (sql_delete_documents d source) as [d' k]. simpl in H.
    destruct rows_fails; [exact H|]. destruct (k =? 0); exact H.
  - intros fault now sourceType title cs.
    destruct (IndexDocument_cases fault now d source sourceType title cs)
      as [[_ ->] | (_ & _ & Hd & _)]; [reflexivity|].
    unfold DocumentExists. rewrite Hd, existsb_app, exists_filtered_other by exact Hne. simpl.
    replace (String.eqb source s) with false; [rewrite orb_false_r; reflexivity|].
    symmetry. apply String.eqb_neq. intros H; apply Hne; symmetry; exact H.
  - intros exec_fails rows_fails. unfold DeleteDocument.
    destruct exec_fails; [reflexivity|].
    assert (H : DocumentExists (fst (sql_delete_documents d source)) s = DocumentExists d s)
      by (apply exists_filtered_other, Hne).
    destruct (sql_delete_documents d source) as [d' k]. simpl in H.
    destruct rows_fails; [exact H|]. destruct (k =? 0); exact H.
Qed.

Lemma DocumentExists_after_write_witness :
  DocumentExists db_two "b" = true /\ DocumentExists (snd (DeleteDocument false false db_two "b")) "b" = false /\
  DocumentExists (snd (DeleteDocument false false db_two "b")) "a" = DocumentExists db_two "a".
Proof.
  destruct (DocumentExists_after_write db_two "b" "a") as (_ & H2 & H3).
  split; [vm_compute; reflexivity|]. split; [apply H2|].
  apply (proj2 (H3 ltac:(discriminate))).
Defined.

(** No search on the database a [DeleteDocument] call leaves, once its
    statement ran, returns a result of the deleted source. *)
Theorem Search_after_delete (rows_fails : bool) (d : DB) (source : string)
    (score : list Z -> list Z -> Q) (query_fails : bool) (q : list Z) (topK : Z) (minScore : Q)
    (sourceFilter : string) (rs : list SearchResult) :
  Search score query_fails (snd (DeleteDocument false rows_fails d source)) q topK minScore
    sourceFilter = Ret rs ->
  Forall (fun r => rSource r <> source) rs.
Proof.
  intros Hs. unfold Search in Hs.
  destruct (negb _); [discriminate|]. destruct query_fails; [discriminate|].
  injection Hs as <-.
  assert (Hd : forall doc, In doc (documents (snd (DeleteDocument false rows_fails d source))) ->
                 Source doc <> source).
  { intros doc. unfold DeleteDocument.
    assert (H : forall doc, In doc (documents (fst (sql_delete_documents d source))) ->
                  Source doc <> source).
    { intros x Hx. simpl in Hx. apply filter_In in Hx as [_ Hx].
      apply negb_true_iff, String.eqb_neq in Hx. exact Hx. }
    destruct (sql_delete_documents d source) as [d' k]. simpl in H.
    destruct rows_fails; [apply H|]. destruct (k =? 0); apply H. }
  apply Forall_forall. intros x Hx. apply in_map_iff in Hx as (r & <- & Hr).
  apply search_rows_in_window in Hr as [Hr _].
  apply in_sql_limit, in_ranked, in_where_source in Hr as [Hr _].
  apply in_join_rows in Hr as (_ & Hdoc & _).
  rewrite source_to_result. apply Hd, Hdoc.
Qed.

Lemma Search_after_delete_witness :
  Search score_first_byte false (snd (DeleteDocument false false db_two "a")) query1536 5 0 ""
    = Ret [mkSearchResult (Content chunk_b) "b" 1 (80 # 100)] /\
  Forall (fun r => rSource r <> "a"%string) [mkSearchResult (Content chunk_b) "b" 1 (80 # 100)].
Proof.
  assert (H : Search score_first_byte false (snd (DeleteDocument false false db_two "a")) query1536 5 0 ""
              = Ret [mkSearchResult (Content chunk_b) "b" 1 (80 # 100)]) by (vm_compute; reflexivity).
  split; [exact H|]. exact (Search_after_delete false db_two "a" _ _ _ _ _ _ _ H).
Defined.

(** When every id in the database is at most the AUTOINCREMENT counter (as
    [NewDatabase] leaves it and both writes keep it), a successful
    [IndexDocument] replaces the content of the source: a search result of
    that source afterwards is the content of one of the new chunks, never
    an old chunk row left behind. *)
Theorem Search_after_reindex (fault : step -> bool) (now : Z) (d : DB)
    (source sourceType title : string) (cs : list Chunk)
    (score : list Z -> list Z -> Q) (query_fails : bool) (q : list Z) (topK : Z) (minScore : Q)
    (sourceFilter : string) (rs : list SearchResult) :
  ids_bounded d ->
  fst (IndexDocument fault now d source sourceType title cs) = Ok ->
  Search score query_fails (snd (IndexDocument fault now d source sourceType title cs)) q topK
    minScore sourceFilter = Ret rs ->
  Forall (fun r => rSource r = source -> In (rContent r) (map Content cs)) rs.
Proof.
  intros [Hbd Hbc] Hok Hs. rewrite Forall_forall in Hbd, Hbc.
  destruct (IndexDocument_cases fault now d source sourceType title cs)
    as [[Hf _] | (_ & _ & Hd & rows & Hc & Hm)]; [contradiction|].
  unfold Search in Hs.
  destruct (negb _); [discriminate|]. destruct query_fails; [discriminate|].
  injection Hs as <-.
  apply Forall_forall. intros x Hx. apply in_map_iff in Hx as (r & <- & Hr).
  destruct r as [[ch doc] sc]. cbn [to_result rSource rContent]. intros Hsrc.
  apply search_rows_in_window in Hr as [Hr _].
  apply in_sql_limit, in_ranked, in_where_source in Hr as [Hr _].
  apply in_join_rows in Hr as (Hch & Hdoc & Hid). cbn [fst snd] in Hch, Hdoc, Hid.
  rewrite Hd in Hdoc. apply in_app_or in Hdoc as [Hdoc | [<- | []]].
  { apply filter_In in Hdoc as [_ Hdoc]. apply negb_true_iff, String.eqb_neq in Hdoc.
    contradiction. }
  cbn [ID] in Hid. rewrite Hc in Hch. apply in_app_or in Hch as [Hch | Hch].
  - destruct (sql_delete_sub d source) as (_ & _ & Hsc).
    specialize (Hbc ch (Hsc ch Hch)). exfalso. lia.
  - exact (proj2 (in_rows_content _ rows cs ch Hm Hch)).
Qed.

Lemma Search_after_reindex_witness :
  ids_bounded db_ab /\
  fst (IndexDocument no_fault 1 db_ab "doc" "content" "" [chunk_b]) = Ok /\
  Search score_first_byte false db_ab_reindexed query1536 5 0 ""
    = Ret [mkSearchResult (Content chunk_b) "doc" 1 (80 # 100)] /\
  Forall (fun r => rSource r = "doc"%string -> In (rContent r) (map Content [chunk_b]))
    [mkSearchResult (Content chunk_b) "doc" 1 (80 # 100)].
Proof.
  assert (Hb : ids_bounded db_ab).
  { split; apply Forall_forall; intros x Hx; vm_compute in Hx;
      repeat (destruct Hx as [<- | Hx]; [vm_compute; discriminate|]); contradiction. }
  assert (Hok : fst (IndexDocument no_fault 1 db_ab "doc" "content" "" [chunk_b]) = Ok)
    by (vm_compute; reflexivity).
  assert (Hs : Search score_first_byte false db_ab_reindexed query1536 5 0 ""
               = Ret [mkSearchResult (Content chunk_b) "doc" 1 (80 # 100)]) by (vm_compute; reflexivity).
  split; [exact Hb|]. split; [exact Hok|]. split; [exact Hs|].
  exact (Search_after_reindex no_fault 1 db_ab "doc" "content" "" [chunk_b] _ _ _ _ _ _ _ Hb Hok Hs).
Defined.

(** [ListDocuments] lists exactly the documents of the requested source
    type (all of them for an empty filter), newest first by [indexed_at];
    it only fails when the query does. *)
Theorem ListDocuments_spec (query_fails : bool) (d : DB) (sourceTypeFilter : string) :
  (query_fails = false -> exists l, ListDocuments query_fails d sourceTypeFilter = Ret l) /\
  (forall l, ListDocuments query_fails d sourceTypeFilter = Ret l ->
     Permutation l (listed_rows d sourceTypeFilter) /\ Sorted newer l).
Proof.
  split.
  - intros ->. eexists. reflexivity.
  - intros l H. unfold ListDocuments in H. destruct query_fails; [discriminate|].
    injection H as <-.
    assert (Hr : (if String.eqb sourceTypeFilter "" then documents d
                  else filter (fun doc => String.eqb (SourceType doc) sourceTypeFilter) (documents d))
                 = listed_rows d sourceTypeFilter).
    { unfold listed_rows. destruct (String.eqb sourceTypeFilter ""); simpl.
      - symmetry. apply forallb_filter_id. apply forallb_forall. reflexivity.
      - reflexivity. }
    rewrite Hr. apply order_indexed_desc_spec.
Qed.

Lemma ListDocuments_spec_witness :
  ListDocuments false db_two "" = Ret (rev (documents db_two)) /\
  Permutation (rev (documents db_two)) (listed_rows db_two "") /\ Sorted newer (rev (documents db_two)).
Proof.
  assert (H : ListDocuments false db_two "" = Ret (rev (documents db_two))) by (vm_compute; reflexivity).
  split; [exact H|]. exact (proj2 (ListDocuments_spec false db_two "") _ H).
Defined.

End StorageExtra.

Module EmbeddingsExtra.
Import Embeddings EmbeddingsSpec EmbeddingsProofs EmbeddingsExtraSpec.



Lemma length_list_set {A} (l : list A) (i : nat) (v : A) : length (list_set l i v) = length l.
Proof. revert i; induction l as [|x l IH]; intros [|i]; simpl; auto. Qed.

Lemma list_set_dim (l : list (option vector)) (i : nat) (v : vector) :
  Forall slot_dim l -> Z.of_nat (length v) = embeddingDimension -> Forall slot_dim (list_set l i (Some v)).
Proof.
  intros H Hv; revert i; induction H as [|o l Ho H IH]; intros [|i]; simpl; constructor; auto.
Qed.

Lemma fill_dim (items : list dataItem) (e e' : list (option vector)) :
  Forall slot_dim e -> fill e items = Ret e' -> Forall slot_dim e' /\ length e' = length e.
Proof.
  revert e; induction items as [|item rest IH]; intros e He Hf; simpl in Hf.
  - injection Hf as <-. split; [exact He | reflexivity].
  - destruct (Index item >=? Z.of_nat (length e)); [discriminate|].
    destruct (negb (Z.of_nat (length (Embedding item)) =? embeddingDimension)) eqn:Ed;
      [discriminate|].
    apply negb_false_iff, Z.eqb_eq in Ed.
    unfold go_set in Hf.
    destruct ((0 <=? Index item) && (Index item <? Z.of_nat (length e))); [|discriminate].
    destruct (IH _ (list_set_dim e _ _ He Ed) Hf) as [H1 H2].
    split; [exact H1|]. rewrite H2. apply length_list_set.
Qed.

Lemma all_present_dim (e : list (option vector)) (es : list vector) :
  Forall slot_dim e -> all_present e = Ret es ->
  length es = length e /\ Forall (fun v => Z.of_nat (length v) = embeddingDimension) es.
Proof.
  intros H; revert es; induction H as [|o e Ho H IH]; intros es Hp; simpl in Hp.
  - injection Hp as <-. split; [reflexivity | constructor].
  - destruct o as [v|]; [|discriminate].
    destruct (all_present e) as [vs| |]; try discriminate. injection Hp as <-.
    destruct (IH vs eq_refl) as [H1 H2]. simpl. split; [rewrite H1; reflexivity|].
    constructor; [exact Ho | exact H2].
Qed.

Lemma embedBatch_dim (env : Env) (texts : list string) (es : list vector) (calls : list (list string)) :
  embedBatch env texts = (Ret es, calls) ->
  length es = length texts /\ Forall (fun v => Z.of_nat (length v) = embeddingDimension) es.
Proof.
  intros H. unfold embedBatch in H.
  destruct (do_attempts env texts 0 maxRetries) as [r c]. injection H as H _.
  destruct r as [[[st body] closed]| |]; try discriminate.
  destruct (read_body closed body) as [resp| |]; try discriminate.
  destruct (Error resp); [discriminate|]. destruct (negb (st =? StatusOK)); [discriminate|].
  unfold reassemble in H.
  destruct (fill (repeat None (length texts)) (Data resp)) as [e| |] eqn:Ef; try discriminate.
  assert (H0 : Forall slot_dim (repeat None (length texts))).
  { apply Forall_forall. intros x Hx. apply repeat_spec in Hx. subst x. exact I. }
  destruct (fill_dim _ _ _ H0 Ef) as [H1 H2].
  destruct (all_present_dim e es H1 H) as [H3 H4].
  split; [rewrite H3, H2; apply repeat_length | exact H4].
Qed.

Lemma slice_batch_k (texts : list string) (k : nat) :
  let len := Z.of_nat (length texts) in
  let i := Z.of_nat (100 * k) in
  let end_ := if i + maxBatchSize >? len then len else i + maxBatchSize in
  slice texts i end_ = batch_k texts k.
Proof.
  intros len i end_. unfold slice, batch_k, end_, i, len, maxBatchSize.
  rewrite Nat2Z.id.
  destruct (Z.of_nat (100 * k) + 100 >? Z.of_nat (length texts)) eqn:E.
  - rewrite Z.gtb_ltb in E; apply Z.ltb_lt in E.
    rewrite (firstn_all2 (n := Z.to_nat _)) by (rewrite length_skipn; lia).
    symmetry. apply firstn_all2. rewrite length_skipn. lia.
  - replace (Z.of_nat (100 * k) + 100 - Z.of_nat (100 * k)) with 100 by lia. reflexivity.
Qed.

Lemma embed_loop_props (env : Env) (texts : list string) (fuel k : nat) (all es : list vector)
    calls :
  embed_loop env texts (Z.of_nat (100 * k)) fuel all = (Ret es, calls) ->
  Z.of_nat (length texts) - Z.of_nat (100 * k) < Z.of_nat fuel ->
  exists es', es = all ++ es' /\ length es' = length (skipn (100 * k) texts) /\
    Forall (fun v => Z.of_nat (length v) = embeddingDimension) es'.
Proof.
  revert k all calls; induction fuel as [|fuel IH]; intros k all calls Hrun Hf.
  - simpl in Hrun. injection Hrun as <- _. exists []. rewrite app_nil_r.
    rewrite skipn_all2 by lia. split; [reflexivity|]. split; [reflexivity | constructor].
  - rewrite Nat2Z.inj_succ in Hf. cbn [embed_loop] in Hrun. cbv zeta in Hrun.
    destruct (Z.of_nat (100 * k) <? Z.of_nat (length texts)) eqn:Ei.
    + apply Z.ltb_lt in Ei.
      pose proof (slice_batch_k texts k) as Hsl. cbv zeta in Hsl.
      pose proof (batch_split texts (Z.of_nat (100 * k)) ltac:(lia)) as Hsplit. cbv zeta in Hsplit.
      set (end_ := if Z.of_nat (100 * k) + maxBatchSize >? Z.of_nat (length texts)
                   then Z.of_nat (length texts) else Z.of_nat (100 * k) + maxBatchSize) in *.
      destruct (embedBatch env (slice texts (Z.of_nat (100 * k)) end_)) as [[es1| |] c1] eqn:Eb;
        try discriminate.
      destruct (embedBatch_dim _ _ _ _ Eb) as [Hl1 Hd1].
      assert (Hnext : Z.of_nat (100 * k) + maxBatchSize = Z.of_nat (100 * S k))
        by (unfold maxBatchSize; lia).
      assert (Hrec : forall r c2, embed_loop env texts (Z.of_nat (100 * k) + maxBatchSize) fuel
                                    (all ++ es1) = (r, c2) -> r = Ret es ->
                     exists es', es = all ++ es' /\ length es' = length (skipn (100 * k) texts) /\
                       Forall (fun v => Z.of_nat (length v) = embeddingDimension) es').
      { intros r c2 Er ->. rewrite Hnext in Er.
        destruct (IH (S k) _ _ Er ltac:(lia)) as (es2 & -> & Hl2 & Hd2).
        exists (es1 ++ es2). split; [symmetry; apply app_assoc|]. split.
        - rewrite length_app, Hl1, Hl2.
          rewrite Nat2Z.id, Hnext, Nat2Z.id in Hsplit. rewrite <- Hsplit, length_app. reflexivity.
        - apply Forall_app; split; assumption. }
      destruct (end_ <? Z.of_nat (length texts)).
      * destruct (delay_fires env (Z.of_nat (100 * k))); [|discriminate].
        destruct (embed_loop env texts (Z.of_nat (100 * k) + maxBatchSize) fuel _) as [r c2] eqn:Er.
        cbn in Hrun. injection Hrun as Hr _. exact (Hrec r c2 eq_refl Hr).
      * destruct (embed_loop env texts (Z.of_nat (100 * k) + maxBatchSize) fuel _) as [r c2] eqn:Er.
        cbn in Hrun. injection Hrun as Hr _. exact (Hrec r c2 eq_refl Hr).
    + apply Z.ltb_ge in Ei. injection Hrun as <- _. exists []. rewrite app_nil_r.
      rewrite skipn_all2 by lia. split; [reflexivity|]. split; [reflexivity | constructor].
Qed.



Lemma Embed_dim (env : Env) (texts : list string) (es : list vector) calls :
  Embed env texts = (Ret es, calls) ->
  length es = length texts /\ Forall (fun v => Z.of_nat (length v) = 1536) es.
Proof.
  intros H. destruct texts as [|t rest].
  - simpl in H. injection H as <- _. split; [reflexivity | constructor].
  - unfold Embed in H.
    destruct (embed_loop_props env (t :: rest) _ 0 [] es calls H ltac:(lia)) as (es' & -> & Hl & Hd).
    split; [exact Hl | exact Hd].
Qed.

(** *** Extra properties *)



(** Whatever the provider answers, a successful [embedBatch] returns one
    vector per text, each of [embeddingDimension] = 1536 elements. *)
Theorem embedBatch_success_shape (env : Env) (texts : list string) (es : list vector)
    (calls : list (list string)) :
  embedBatch env texts = (Ret es, calls) ->
  length es = length texts /\ Forall (fun v => Z.of_nat (length v) = 1536) es.
Proof. apply embedBatch_dim. Qed.

Lemma embedBatch_success_shape_witness :
  embedBatch env_rev ["a"%string; "bb"%string] = (Ret [emb_len "a"; emb_len "bb"], [["a"%string; "bb"%string]]) /\
  length [emb_len "a"; emb_len "bb"] = 2%nat /\
  Forall (fun v => Z.of_nat (length v) = 1536) [emb_len "a"; emb_len "bb"].
Proof.
  assert (H : embedBatch env_rev ["a"%string; "bb"%string] =
              (Ret [emb_len "a"; emb_len "bb"], [["a"%string; "bb"%string]])) by (vm_compute; reflexivity).
  split; [exact H|]. exact (embedBatch_success_shape _ _ _ _ H).
Defined.



End EmbeddingsExtra.

Module ServiceExtra.
Import Service ServiceExtraSpec.

Lemma storage_search_results (score : list Z -> list Z -> Q) (query_fails : bool) (d : Storage.DB)
    (q : list Z) (topK : Z) (minScore : Q) (f : string) (rs : list Storage.SearchResult) :
  0 <= topK -> Storage.Search score query_fails d q topK minScore f = Ret rs ->
  (length rs <= Z.to_nat topK)%nat /\
  Sorted (fun a b => (Storage.rScore b <= Storage.rScore a)%Q) rs /\
  Forall (fun r => (minScore <= Storage.rScore r)%Q) rs.
Proof.
  intros Hk Hs. unfold Storage.Search in Hs.
  destruct (negb _); [discriminate|]. destruct query_fails; [discriminate|].
  injection Hs as <-.
  assert (Hrows : Storage.search_rows score d (Storage.serializeEmbedding q) topK minScore f
                  = filter (fun r => Qle_bool minScore (Storage.row_score r))
                      (firstn (Z.to_nat topK) (Storage.ranked_rows score d (Storage.serializeEmbedding q) f))).
  { unfold Storage.search_rows, Storage.sql_limit.
    replace (topK <? 0) with false by (symmetry; apply Z.ltb_ge; lia). reflexivity. }
  split; [|split].
  - rewrite length_map, Hrows. etransitivity; [apply filter_length_le|].
    rewrite length_firstn. lia.
  - apply StorageProofs.sorted_map_results. apply StronglySorted_Sorted. rewrite Hrows.
    apply StorageProofs.strongly_sorted_filter, StorageProofs.strongly_sorted_firstn,
      Sorted_StronglySorted; [exact StorageProofs.desc_trans | apply StorageProofs.order_desc_sorted].
  - apply Forall_forall. intros x Hx. apply in_map_iff in Hx as (r & <- & Hr).
    apply StorageProofs.search_rows_in_window in Hr as [_ Hr].
    rewrite StorageProofs.score_to_result. apply Qle_bool_iff, Hr.
Qed.

Lemma IndexDocument_err_keeps (fault : Storage.step -> bool) (now : Z) (d d' : Storage.DB)
    (source sourceType title : string) (cs : list Storage.Chunk) (m : string) :
  Storage.IndexDocument fault now d source sourceType title cs = (Storage.Err m, d') -> d' = d.
Proof.
  intros H.
  destruct (StorageExtra.IndexDocument_cases fault now d source sourceType title cs)
    as [[_ Hd] | [Hok _]]; rewrite H in *; simpl in *; [exact Hd | discriminate].
Qed.

Lemma length_combine_eq {A B} (l1 : list A) (l2 : list B) :
  length l1 = length l2 -> length (combine l1 l2) = length l1.
Proof. intros H. rewrite length_combine, H. apply Nat.min_id. Qed.

(** *** Extra properties *)

(** A successful [Service.Search] reports as [Count] the number of its
    results, at most [TopK] of them (5 when [TopK] is not positive),
    best score first, none below [MinScore]. *)
Theorem Search_response (env : Embeddings.Env) (score : list Z -> list Z -> Q) (query_fails : bool)
    (d : Storage.DB) (req : SearchRequest) (resp : SearchResponse) :
  Search env score query_fails d req = Ret resp ->
  Count resp = Z.of_nat (length (Results resp)) /\
  Z.of_nat (length (Results resp)) <= (if TopK req <=? 0 then 5 else TopK req) /\
  Sorted (fun a b => (Storage.rScore b <= Storage.rScore a)%Q) (Results resp) /\
  Forall (fun r => (MinScore req <= Storage.rScore r)%Q) (Results resp).
Proof.
  intros H. unfold Search in H.
  destruct (fst (Embeddings.Embed env [Query req])) as [[|qe rest]| |]; try discriminate.
  set (topK := if TopK req <=? 0 then 5 else TopK req) in *.
  assert (Hk : 0 < topK) by (unfold topK; destruct (TopK req <=? 0) eqn:E; [lia | apply Z.leb_gt in E; lia]).
  clearbody topK.
  destruct (Storage.Search score query_fails d qe topK (MinScore req) (SourceFilter req)) as [rs| |] eqn:Es;
    try discriminate.
  injection H as <-. cbn [Count Results].
  destruct (storage_search_results _ _ _ _ _ _ _ _ (Z.lt_le_incl _ _ Hk) Es) as (H1 & H2 & H3).
  split; [reflexivity|]. split; [lia|]. split; assumption.
Qed.

Lemma Search_response_witness :
  Search EmbeddingsSpec.env_rev StorageSpec.score_first_byte false StorageSpec.db_two
    (mkSearchRequest "q" 0 (1 # 2) "")
  = Ret (mkSearchResponse [Storage.mkSearchResult (Storage.Content StorageSpec.chunk_b) "b" 1 (80 # 100)] 1) /\
  Z.of_nat 1 <= 5.
Proof.
  assert (H : Search EmbeddingsSpec.env_rev StorageSpec.score_first_byte false StorageSpec.db_two
                (mkSearchRequest "q" 0 (1 # 2) "")
              = Ret (mkSearchResponse [Storage.mkSearchResult (Storage.Content StorageSpec.chunk_b) "b" 1 (80 # 100)] 1))
    by (vm_compute; reflexivity).
  split; [exact H|]. exact (proj1 (proj2 (Search_response _ _ _ _ _ _ H))).
Defined.

(** Once the provider embeds the query, [Service.Search] fails only when
    the database query does: the embedding [Embed] returns always has the
    dimension [Storage.Search] checks. *)
Theorem Search_fails_only_on_query (env : Embeddings.Env) (score : list Z -> list Z -> Q)
    (d : Storage.DB) (req : SearchRequest) (es : list Embeddings.vector) :
  fst (Embeddings.Embed env [Query req]) = Ret es ->
  exists resp, Search env score false d req = Ret resp.
Proof.
  intros He. unfold Search. rewrite He.
  destruct (Embeddings.Embed env [Query req]) as [r calls] eqn:E. simpl in He. subst r.
  destruct (EmbeddingsExtra.Embed_dim env [Query req] es calls E) as [Hl Hd].
  destruct es as [|qe rest]; [discriminate|]. inversion Hd as [|? ? Hq _]; subst.
  unfold Storage.Search. rewrite Hq. simpl. eexists. reflexivity.
Qed.

Lemma Search_fails_only_on_query_witness :
  fst (Embeddings.Embed EmbeddingsSpec.env_rev ["q"%string]) = Ret [EmbeddingsSpec.emb_len "q"] /\
  exists resp, Search EmbeddingsSpec.env_rev StorageSpec.score_first_byte false StorageSpec.db0
                 (mkSearchRequest "q" 3 0 "") = Ret resp.
Proof.
  assert (H : fst (Embeddings.Embed EmbeddingsSpec.env_rev ["q"%string]) = Ret [EmbeddingsSpec.emb_len "q"])
    by (vm_compute; reflexivity).
  split; [exact H|].
  exact (Search_fails_only_on_query EmbeddingsSpec.env_rev StorageSpec.score_first_byte StorageSpec.db0
           (mkSearchRequest "q" 3 0 "") _ H).
Defined.

(** Whenever [Service.Index] returns without success, the database is the
    one it started from: every check runs before the store is touched, and
    a failing [IndexDocument] is rolled back. *)
Theorem Index_failure_keeps_db (fuel : nat) (c : Chunker.Chunker) (env : IndexEnv)
    (d d' : Storage.DB) (req : IndexRequest) (r : outcome IndexResponse) :
  Index fuel c env d req = Some (r, d') -> (forall resp, r <> Ret resp) -> d' = d.
Proof.
  intros H Hr. unfold Index in H.
  repeat match type of H with
  | context [if ?b then _ else _] => destruct b
  | context [match fetch_content ?e ?q ?x ?y with _ => _ end] =>
      destruct (fetch_content e q x y) as [[[[? ?] ?] ?]| |]
  | context [match Chunker.ChunkText ?f ?c ?t with _ => _ end] =>
      destruct (Chunker.ChunkText f c t)
  | context [match fst (Embeddings.Embed ?e ?t) with _ => _ end] =>
      destruct (fst (Embeddings.Embed e t))
  | context [match Storage.IndexDocument ?f ?n ?d ?s ?st ?ti ?cs with _ => _ end] =>
      destruct (Storage.IndexDocument f n d s st ti cs) as [[|m] d0] eqn:Ei
  end; try discriminate; injection H as <- <-; try reflexivity.
  - exfalso. eapply Hr. reflexivity.
  - eapply IndexDocument_err_keeps. exact Ei.
Qed.

Lemma Index_failure_keeps_db_witness :
  Index 10 (Chunker.NewChunker 1000 100) (mkIndexEnv (fun _ => None) (fun _ => Fail "no network") false
      EmbeddingsSpec.env_rev (fun st => match st with Storage.CommitTx => true | _ => false end) 0)
    StorageSpec.db_two (content_request "c" [104; 105] false)
  = Some (Fail "failed to store document: commit failed", StorageSpec.db_two) /\
  StorageSpec.db_two = StorageSpec.db_two.
Proof.
  assert (H : Index 10 (Chunker.NewChunker 1000 100) (mkIndexEnv (fun _ => None) (fun _ => Fail "no network") false
      EmbeddingsSpec.env_rev (fun st => match st with Storage.CommitTx => true | _ => false end) 0)
    StorageSpec.db_two (content_request "c" [104; 105] false)
    = Some (Fail "failed to store document: commit failed", StorageSpec.db_two)) by (vm_compute; reflexivity).
  split; [exact H|]. exact (Index_failure_keeps_db _ _ _ _ _ _ _ H (fun resp E => ltac:(discriminate E))).
Defined.

(** A successful [Service.Index] leaves its source in the store, as one
    document of the reported source type whose chunk count is the positive
    count it reports; without [Reindex] the source was not in the store
    before. *)
Theorem Index_success (fuel : nat) (c : Chunker.Chunker) (env : IndexEnv) (d d' : Storage.DB)
    (req : IndexRequest) (resp : IndexResponse) :
  Index fuel c env d req = Some (Ret resp, d') ->
  Storage.DocumentExists d' (resSource resp) = true /\
  (Reindex req = false -> Storage.DocumentExists d (resSource resp) = false) /\
  0 < resChunkCount resp /\
  exists doc, In doc (Storage.documents d') /\ Storage.Source doc = resSource resp /\
    Storage.SourceType doc = resSourceType resp /\ Storage.ChunkCount doc = resChunkCount resp.
Proof.
  intros H. unfold Index in H.
  destruct (_ =? 0); [discriminate|]. destruct (_ >? 1); [discriminate|].
  destruct (fetch_content env req _ _) as [[[[source sourceType] content] title]| |];
    try discriminate.
  destruct (negb (Reindex req) && exists_fails env); [discriminate|].
  destruct (negb (Reindex req) && Storage.DocumentExists d source) eqn:Eex; [discriminate|].
  destruct (Chunker.ChunkText fuel c content) as [chunks|]; [|discriminate].
  destruct (Nat.eqb (length chunks) 0) eqn:E0; [discriminate|].
  destruct (fst (Embeddings.Embed (emb env) _)) as [es| |]; try discriminate.
  destruct (negb (Nat.eqb (length es) (length chunks))) eqn:Elen; [discriminate|].
  set (cs := map (fun p => to_storage (fst p) (snd p)) (combine chunks es)) in H.
  destruct (Storage.IndexDocument (fault env) (now env) d source sourceType title cs) as [[|m] d1] eqn:Ei;
    [|discriminate].
  injection H as <- <-. cbn [resSource resSourceType resChunkCount].
  apply Nat.eqb_neq in E0. apply negb_false_iff, Nat.eqb_eq in Elen.
  destruct (StorageExtra.IndexDocument_cases (fault env) (now env) d source sourceType title cs)
    as [[Hf _] | (_ & _ & Hd & _)]; rewrite Ei in *; simpl in *; [contradiction|].
  split.
  - unfold Storage.DocumentExists. rewrite Hd, existsb_app. simpl. rewrite String.eqb_refl.
    apply orb_true_r.
  - split; [intros Hr; rewrite Hr in Eex; exact Eex|]. split; [lia|].
    eexists. split; [rewrite Hd; apply in_or_app; right; left; reflexivity|].
    cbn. split; [reflexivity|]. split; [reflexivity|].
    unfold cs. rewrite length_map, length_combine_eq by (symmetry; exact Elen). reflexivity.
Qed.

Lemma Index_success_witness :
  Index 10 (Chunker.NewChunker 1000 100) index_env StorageSpec.db_two (content_request "c" [104; 105] false)
  = Some (Ret (mkIndexResponse "c" "content" 1 "Successfully indexed c"),
          snd (Storage.IndexDocument StorageSpec.no_fault 0 StorageSpec.db_two "c" "content" ""
                 [Storage.mkChunk 0 [104; 105] 0 2 (EmbeddingsSpec.emb_len "hi")])) /\
  Storage.DocumentExists (snd (Storage.IndexDocument StorageSpec.no_fault 0 StorageSpec.db_two "c" "content" ""
                 [Storage.mkChunk 0 [104; 105] 0 2 (EmbeddingsSpec.emb_len "hi")])) "c" = true.
Proof.
  assert (H : Index 10 (Chunker.NewChunker 1000 100) index_env StorageSpec.db_two (content_request "c" [104; 105] false)
  = Some (Ret (mkIndexResponse "c" "content" 1 "Successfully indexed c"),
          snd (Storage.IndexDocument StorageSpec.no_fault 0 StorageSpec.db_two "c" "content" ""
                 [Storage.mkChunk 0 [104; 105] 0 2 (EmbeddingsSpec.emb_len "hi")]))) by (vm_compute; reflexivity).
  split; [exact H|]. exact (proj1 (Index_success _ _ _ _ _ _ _ H)).
Defined.

End ServiceExtra.

Module FetcherExtra.
Import Fetcher FetcherExtraSpec.

Lemma fields_r_ok (s : list rune) :
  Forall (fun r => isSpace r = false) (fst (fields_r s)) /\ Forall field_ok (snd (fields_r s)).
Proof.
  induction s as [|r s IH]; simpl; [split; constructor|].
  destruct (fields_r s) as [w ws]. simpl in IH. destruct IH as [Hw Hws].
  destruct (isSpace r) eqn:E; simpl.
  - split; [constructor|]. destruct w as [|x w]; [exact Hws|].
    constructor; [split; [discriminate | exact Hw] | exact Hws].
  - split; [constructor; assumption | exact Hws].
Qed.

Lemma Fields_ok (s : list rune) : Forall field_ok (Fields s).
Proof.
  unfold Fields. pose proof (fields_r_ok s) as [Hw Hws].
  destruct (fields_r s) as [w ws]. simpl in *. destruct w as [|x w]; [exact Hws|].
  constructor; [split; [discriminate | exact Hw] | exact Hws].
Qed.

Lemma fields_r_word (w l : list rune) :
  Forall (fun r => isSpace r = false) w ->
  fields_r (w ++ l) = (w ++ fst (fields_r l), snd (fields_r l)).
Proof.
  induction 1 as [|x w Hx Hw IH]; simpl.
  - destruct (fields_r l); reflexivity.
  - rewrite IH, Hx. reflexivity.
Qed.

Lemma fields_r_space (l : list rune) : fields_r (32 :: l) = ([], Fields l).
Proof. simpl. unfold Fields. destruct (fields_r l); reflexivity. Qed.

Lemma Fields_Join (ws : list (list rune)) : Forall field_ok ws -> Fields (Join ws [32]) = ws.
Proof.
  induction 1 as [|w ws [Hne Hw] Hws IH]; [reflexivity|].
  destruct ws as [|w' ws].
  - cbn [Join]. unfold Fields. rewrite <- (app_nil_r w), fields_r_word by exact Hw. simpl.
    rewrite app_nil_r. destruct w; [contradiction | reflexivity].
  - change (Join (w :: w' :: ws) [32]) with (w ++ [32] ++ Join (w' :: ws) [32]). cbn [app].
    unfold Fields at 1. rewrite fields_r_word, fields_r_space by exact Hw. cbn [fst snd].
    rewrite app_nil_r, IH. destruct w; [contradiction | reflexivity].
Qed.

Lemma single_spaced_word (b : bool) (w l : list rune) :
  field_ok w -> single_spaced b (w ++ l) = single_spaced false l.
Proof.
  intros [Hne Hw]. revert b. induction Hw as [|x w Hx Hw IH]; intros b; [contradiction|].
  simpl. rewrite Hx. destruct w as [|y w]; [reflexivity|]. apply IH. discriminate.
Qed.

Lemma single_spaced_Join (b : bool) (ws : list (list rune)) :
  ws <> [] -> Forall field_ok ws -> single_spaced b (Join ws [32]) = true.
Proof.
  intros Hne H. revert b. induction H as [|w ws Hw Hws IH]; intros b; [contradiction|].
  destruct ws as [|w' ws].
  - cbn [Join]. rewrite <- (app_nil_r w), single_spaced_word by exact Hw. reflexivity.
  - change (Join (w :: w' :: ws) [32]) with (w ++ [32] ++ Join (w' :: ws) [32]).
    rewrite single_spaced_word by exact Hw. cbn [app single_spaced]. simpl.
    apply IH. discriminate.
Qed.

(** *** Extra properties *)

(** [normalizeWhitespace] keeps the words of the text ([strings.Fields])
    and joins them with single spaces: applying it again changes nothing,
    and every space rune of its result is one [' '] between two non-space
    runes. *)
Theorem normalizeWhitespace_spec (text : list rune) :
  Fields (normalizeWhitespace text) = Fields text /\
  normalizeWhitespace (normalizeWhitespace text) = normalizeWhitespace text /\
  single_spaced_text (normalizeWhitespace text) = true.
Proof.
  pose proof (Fields_ok text) as Hok.
  assert (HF : Fields (normalizeWhitespace text) = Fields text) by (apply Fields_Join, Hok).
  split; [exact HF|]. split; [unfold normalizeWhitespace at 1; rewrite HF; reflexivity|].
  unfold normalizeWhitespace. destruct (Fields text) as [|w ws] eqn:E; [reflexivity|].
  unfold single_spaced_text.
  destruct (Join (w :: ws) [32]) eqn:EJ; [reflexivity|]. rewrite <- EJ.
  apply single_spaced_Join; [discriminate | exact Hok].
Qed.

Lemma prefix_app (a b s : string) : String.prefix (a ++ b) s = true -> String.prefix a s = true.
Proof.
  revert s; induction a as [|x a IH]; intros s H; [destruct s; reflexivity|].
  destruct s as [|y s]; simpl in H; [discriminate|]. simpl.
  destruct (Ascii.ascii_dec x y); [apply IH, H | discriminate].
Qed.

Lemma Contains_eq (s sub : string) :
  Contains s sub = String.prefix sub s || match s with EmptyString => false | String _ s' => Contains s' sub end.
Proof. destruct s; reflexivity. Qed.

Lemma Contains_app (s a b : string) : Contains s (a ++ b) = true -> Contains s a = true.
Proof.
  induction s as [|x s IH]; intros H; rewrite Contains_eq in H; rewrite Contains_eq.
  - apply orb_true_iff in H as [H | H]; [|discriminate].
    rewrite (prefix_app a b _ H). reflexivity.
  - apply orb_true_iff in H as [H | H].
    + rewrite (prefix_app a b _ H). reflexivity.
    + rewrite (IH H). apply orb_true_r.
Qed.

(** On an ASCII content type, [isTextContent] accepts exactly the types
    whose lower-cased form contains ["text/"]: the checks for [text/plain],
    [text/html] and [text/markdown] are subsumed, and any other [text/]
    type, such as [text/csv], is accepted too. *)
Theorem isTextContent_text_prefix (contentType lower : string) :
  ToLower contentType = Some lower -> isTextContent contentType = Some (Contains lower "text/").
Proof.
  intros H. unfold isTextContent. rewrite H. f_equal.
  destruct (Contains lower "text/") eqn:E; [apply orb_true_r|].
  rewrite orb_false_r.
  assert (Hp : Contains lower "text/plain" = false).
  { destruct (Contains lower "text/plain") eqn:E1; [|reflexivity].
    rewrite (Contains_app lower "text/" "plain" E1) in E; discriminate. }
  assert (Hh : Contains lower "text/html" = false).
  { destruct (Contains lower "text/html") eqn:E1; [|reflexivity].
    rewrite (Contains_app lower "text/" "html" E1) in E; discriminate. }
  assert (Hm : Contains lower "text/markdown" = false).
  { destruct (Contains lower "text/markdown") eqn:E1; [|reflexivity].
    rewrite (Contains_app lower "text/" "markdown" E1) in E; discriminate. }
  rewrite Hp, Hh, Hm. reflexivity.
Qed.

Lemma isTextContent_text_prefix_witness :
  ToLower "Text/CSV; charset=utf-8"%string = Some "text/csv; charset=utf-8"%string /\
  isTextContent "Text/CSV; charset=utf-8"%string = Some true /\
  isTextContent "application/json"%string = Some false.
Proof.
  split; [reflexivity|]. split.
  - exact (isTextContent_text_prefix "Text/CSV; charset=utf-8"%string "text/csv; charset=utf-8"%string eq_refl).
  - exact (isTextContent_text_prefix "application/json"%string "application/json"%string eq_refl).
Defined.

End FetcherExtra.

Module ConfigExtra.
Import Config ConfigExtraSpec.
Local Open Scope string_scope.

(** *** Extra properties *)

(** A configuration [LoadConfig] returns has an API key, a positive chunk
    size and an overlap in [[0, ChunkSize)]; so [NewChunker] in main.go
    keeps both values as they are. *)
Theorem LoadConfig_valid (getenv : string -> string) (cfg : Config) :
  LoadConfig getenv = Ret cfg ->
  OpenAIAPIKey cfg <> "" /\ (0 < ChunkSize cfg)%Z /\ (0 <= Overlap cfg < ChunkSize cfg)%Z /\
  Chunker.NewChunker (ChunkSize cfg) (Overlap cfg) = Chunker.mkChunker (ChunkSize cfg) (Overlap cfg).
Proof.
  unfold LoadConfig. intros H. cbv zeta in H. cbn [OpenAIAPIKey ChunkSize Overlap] in H.
  destruct (String.eqb (getenv "OPENAI_API_KEY") "") eqn:E1; [discriminate|].
  destruct (getEnvAsIntOrDefault getenv "CHUNK_SIZE" 1000 <=? 0)%Z eqn:E2; [discriminate|].
  destruct (getEnvAsIntOrDefault getenv "OVERLAP" 100 <? 0)%Z eqn:E3; [discriminate|].
  destruct (getEnvAsIntOrDefault getenv "OVERLAP" 100 >=? getEnvAsIntOrDefault getenv "CHUNK_SIZE" 1000)%Z
    eqn:E4; [discriminate|].
  injection H as <-. simpl.
  apply String.eqb_neq in E1. apply Z.leb_gt in E2. apply Z.ltb_ge in E3.
  rewrite Z.geb_leb in E4. apply Z.leb_gt in E4.
  split; [exact E1|]. split; [exact E2|]. split; [lia|].
  unfold Chunker.NewChunker.
  replace (getEnvAsIntOrDefault getenv "CHUNK_SIZE" 1000 <=? 0)%Z with false by (symmetry; apply Z.leb_gt; lia).
  replace (getEnvAsIntOrDefault getenv "OVERLAP" 100 <? 0)%Z with false by (symmetry; apply Z.ltb_ge; lia).
  replace (getEnvAsIntOrDefault getenv "OVERLAP" 100 >=? getEnvAsIntOrDefault getenv "CHUNK_SIZE" 1000)%Z
    with false by (symmetry; rewrite Z.geb_leb; apply Z.leb_gt; lia).
  reflexivity.
Qed.

(** With only [OPENAI_API_KEY] set, [LoadConfig] returns the defaults:
    [db_data/doc_search.db], chunks of 1000 runes overlapping by 100. *)
Theorem LoadConfig_defaults (getenv : string -> string) :
  getenv "OPENAI_API_KEY" <> "" -> getenv "DB_PATH" = "" -> getenv "CHUNK_SIZE" = "" ->
  getenv "OVERLAP" = "" ->
  LoadConfig getenv = Ret (mkConfig (getenv "OPENAI_API_KEY") "db_data/doc_search.db" 1000 100).
Proof.
  intros Hk Hd Hc Ho. unfold LoadConfig, getEnvOrDefault, getEnvAsIntOrDefault.
  rewrite Hd, Hc, Ho. cbv zeta. cbn [OpenAIAPIKey ChunkSize Overlap String.eqb].
  apply String.eqb_neq in Hk. rewrite Hk. reflexivity.
Qed.

Lemma LoadConfig_defaults_witness :
  env_key_only "OPENAI_API_KEY" <> "" /\
  LoadConfig env_key_only = Ret (mkConfig "sk-test" "db_data/doc_search.db" 1000 100).
Proof.
  split; [discriminate|].
  exact (LoadConfig_defaults env_key_only ltac:(discriminate) eq_refl eq_refl eq_refl).
Defined.

Lemma LoadConfig_valid_witness :
  LoadConfig env_key_only = Ret (mkConfig "sk-test" "db_data/doc_search.db" 1000 100) /\
  (0 <= 100 < 1000)%Z.
Proof.
  assert (H : LoadConfig env_key_only = Ret (mkConfig "sk-test" "db_data/doc_search.db" 1000 100))
    by reflexivity.
  split; [exact H|]. exact (proj1 (proj2 (proj2 (LoadConfig_valid _ _ H)))).
Defined.

End ConfigExtra.
